(** * Incremental search over the site index (search section of the site script)

    Shallow embedding of [clear_search_index], [search_index],
    [render_results], [render_link] and [render_item], together with the
    event wiring ([keyup] on the query field, document [click], the ["/"]
    shortcut).  A character is one UTF-16 code unit below 256 (Latin-1),
    held in an [ascii]; the global [site_index] object is
    the list of its [Object.keys] in enumeration order paired with the
    property values; [sel_idx] is the module-level [let sel_idx = -1]. *)

From Stdlib Require Import String Ascii List Permutation NArith ZArith QArith Sorted Bool Lia.
Import ListNotations.

Local Open Scope Z_scope.

(** ** JavaScript results *)

Inductive js_error := ReferenceError | TypeError.

(** Outcome of running a piece of the script: a value, a thrown exception,
    or [Unmodelled] when the query uses a regular-expression feature outside
    the fragment embedded below (only literal characters and [.]). *)
Inductive result (A : Type) :=
| Ok (a : A)
| Throws (e : js_error)
| Unmodelled.
Arguments Ok {A} a.
Arguments Throws {A} e.
Arguments Unmodelled {A}.

(** ** Case canonicalisation *)

(** [Canonicalize] of the [i] flag (non-unicode mode) on a Latin-1 code
    unit: its [toUpperCase], so a-z and à-þ except ÷ move down by 32.
    ß (upper case "SS") is kept, being more than one unit; µ and ÿ, whose
    upper cases U+039C and U+0178 lie outside Latin-1 and are the upper
    case of no other Latin-1 unit, are kept as well: two Latin-1 units
    have equal images either way. *)
Definition to_upper_ascii (c : ascii) : ascii :=
  let n := nat_of_ascii c in
  if ((97 <=? n)%nat && (n <=? 122)%nat) ||
     ((224 <=? n)%nat && (n <=? 254)%nat && negb (n =? 247)%nat)
  then ascii_of_nat (n - 32) else c.

(** [String.prototype.toLowerCase] on one Latin-1 code unit: A-Z and
    À-Þ except × move up by 32. *)
Definition to_lower_ascii (c : ascii) : ascii :=
  let n := nat_of_ascii c in
  if ((65 <=? n)%nat && (n <=? 90)%nat) ||
     ((192 <=? n)%nat && (n <=? 222)%nat && negb (n =? 215)%nat)
  then ascii_of_nat (n + 32) else c.

Fixpoint toLowerCase (s : string) : string :=
  match s with
  | EmptyString => EmptyString
  | String c s' => String (to_lower_ascii c) (toLowerCase s')
  end.

(** ** [new RegExp(query, 'i')] for patterns of literal characters and [.] *)

Inductive atom := AChar (c : ascii) | ADot.

(** Pattern characters with a special meaning other than [.]; a query
    containing one of them is outside the modelled fragment. *)
Definition unmodelled_chars : list ascii :=
  list_ascii_of_string "^$\*+?()[]{}|".

Fixpoint compile (query : string) : option (list atom) :=
  match query with
  | EmptyString => Some []
  | String c q' =>
      if (c =? ".")%char then option_map (cons ADot) (compile q')
      else if existsb (Ascii.eqb c) unmodelled_chars then None
      else option_map (cons (AChar c)) (compile q')
  end.

Definition is_line_terminator (c : ascii) : bool :=
  (c =? ascii_of_nat 10)%char || (c =? ascii_of_nat 13)%char.

Definition atom_matches (a : atom) (c : ascii) : bool :=
  match a with
  | AChar d => (to_upper_ascii d =? to_upper_ascii c)%char
  | ADot => negb (is_line_terminator c)
  end.

(** The pattern matches at the start of [s]: [/^p/i.test(s)]. *)
Fixpoint match_here (p : list atom) (s : string) : bool :=
  match p, s with
  | [], _ => true
  | a :: p', String c s' => atom_matches a c && match_here p' s'
  | _ :: _, EmptyString => false
  end.

(** The pattern matches somewhere in [s]: [/p/i.test(s)]. *)
Fixpoint match_anywhere (p : list atom) (s : string) : bool :=
  match_here p s ||
  match s with
  | EmptyString => false
  | String _ s' => match_anywhere p s'
  end.

(** ** Candidates *)

(** The value stored in [title_lc]: the code stores the method
    [title.toLowerCase] itself, not its result. *)
Inductive js_function := String_prototype_toLowerCase.

(** [ToPrimitive] of a native function object, as used by [<] and [>]. *)
Definition function_to_string (f : js_function) : string :=
  match f with
  | String_prototype_toLowerCase => "function toLowerCase() { [native code] }"
  end.

(** Scores are numbers, kept as the exact rational value of the double
    the code computes (see [js_div]); doubles compare as these values. *)
Record match_rec := mk_match {
  title : string;
  url : string;
  score : Q;
  title_lc : js_function;
  selected : bool  (* the [selected] property set by [render_results] *)
}.

Definition js_length (s : string) : Q := inject_Z (Z.of_nat (String.length s)).

(** ** Numbers *)

(** [(n * 2^-e, d)] or [(n, d * 2^e)]: the fraction [n / d] over [2^e]. *)
Definition scale (n d e : Z) : Z * Z :=
  if e <? 0 then (n * 2 ^ (- e), d) else (n, d * 2 ^ e).

(** For [n, d > 0], the exponent [e] with [2^52 <= n / d / 2^e < 2^53]:
    the place of the last of the 53 significant bits of a double. *)
Definition ulp_exponent (n d : Z) : Z :=
  let e := Z.log2 n - Z.log2 d - 52 in
  let '(a, b) := scale n d e in
  if a / b <? 2 ^ 52 then e - 1 else e.

(** [n / d] rounded to 53 significant bits, to nearest with ties to even. *)
Definition round53 (n d : Z) : Q :=
  let e := ulp_exponent n d in
  let '(a, b) := scale n d e in
  let m := a / b in
  let r := a mod b in
  let m := if (b <? 2 * r) || ((2 * r =? b) && Z.odd m) then m + 1 else m in
  if e <? 0 then m # Z.to_pos (2 ^ (- e)) else inject_Z (m * 2 ^ e).

(** The double nearest to [x].  The numbers of this code are string
    lengths (below 2^53), their quotients and ten times those, all zero or
    between 2^-53 and 2^57: in the range of normal doubles, where IEEE 754
    rounding is the rounding to 53 significant bits. *)
Definition round_double (x : Q) : Q :=
  match Qnum x with
  | Z0 => 0
  | Zpos n => round53 (Zpos n) (Zpos (Qden x))
  | Zneg n => - round53 (Zpos n) (Zpos (Qden x))
  end.

(** [x / y] and [x * y] on doubles.  The code divides by a title's length
    only when the pattern matched the title, so a zero divisor comes with
    the empty query alone: 0 / 0 is NaN, which is not [> 0], and is 0 here. *)
Definition js_div (x y : Q) : Q := round_double (x / y).
Definition js_mul (x y : Q) : Q := round_double (x * y).

Definition Q_gt (x y : Q) : bool := match Qcompare x y with Gt => true | _ => false end.
Definition Q_lt (x y : Q) : bool := match Qcompare x y with Lt => true | _ => false end.

(** The score of one title: [lead] is [^query], [partial] is [query]. *)
Definition score_of (p : list atom) (query t : string) : Q :=
  if match_here p t then js_mul (js_div (js_length query) (js_length t)) 10
  else if match_anywhere p t then js_div (js_length query) (js_length t)
  else 0.

(** [Object.keys(site_index).forEach(...)] pushing every title with
    [score > 0]. *)
Fixpoint collect (p : list atom) (query : string) (keys : list (string * string))
  : list match_rec :=
  match keys with
  | [] => []
  | (t, u) :: ks =>
      let s := score_of p query t in
      if Q_gt s 0
      then mk_match t u s String_prototype_toLowerCase false :: collect p query ks
      else collect p query ks
  end.

(** ** Sorting *)

Definition str_gt (a b : string) : bool :=
  match String.compare a b with Gt => true | _ => false end.
Definition str_lt (a b : string) : bool :=
  match String.compare a b with Lt => true | _ => false end.

(** The comparator passed to [list.sort]. *)
Definition compare_matches (a b : match_rec) : Z :=
  if Q_gt (score a) (score b) then -1
  else if Q_lt (score a) (score b) then 1
  else if str_gt (function_to_string (title_lc a)) (function_to_string (title_lc b)) then 1
  else if str_lt (function_to_string (title_lc a)) (function_to_string (title_lc b)) then -1
  else 0.

(** [Array.prototype.sort] is stable: insertion of each element after every
    element that does not compare greater than it. *)
Fixpoint insert_match (x : match_rec) (l : list match_rec) : list match_rec :=
  match l with
  | [] => [x]
  | y :: l' => if compare_matches x y <? 0 then x :: y :: l' else y :: insert_match x l'
  end.

Definition sort_matches (l : list match_rec) : list match_rec :=
  fold_left (fun acc x => insert_match x acc) l [].

(** ** One search pass *)

Definition index := list (string * string).

(** The list built by [search_index] before the key dispatch: scoring,
    then (when non-empty) sort and truncation to 10 entries.  A missing
    [site_index] global makes [Object.keys(site_index)] throw. *)
Definition search_list (site_index : option index) (query : string)
  : result (list match_rec) :=
  match compile query with
  | None => Unmodelled
  | Some p =>
      match site_index with
      | None => Throws ReferenceError
      | Some keys =>
          let list := collect p query keys in
          if (0 <? List.length list)%nat then
            let list := sort_matches list in
            Ok (if (10 <? List.length list)%nat then firstn 10 list else list)
          else Ok list
      end
  end.

(** ** Widget state and rendering *)

(** One [<li>] of the results list: its [class="selected"] attribute and
    the [<a href=url>title</a>] it wraps. *)
Record item := mk_item { li_selected : bool; a_href : string; a_text : string }.

(** The [index_results] element: its children and whether it is shown. *)
Record display := mk_display { contents : list item; shown : bool }.

Definition hidden_empty : display := mk_display [] false.

Record state := mk_state {
  index_query : string;       (* value of the [index_query] input *)
  index_results : display;
  sel_idx : Z;
  location : option string    (* last [window.location.assign] target *)
}.

Definition set_query (v : string) (s : state) : state :=
  mk_state v (index_results s) (sel_idx s) (location s).
Definition set_results (d : display) (s : state) : state :=
  mk_state (index_query s) d (sel_idx s) (location s).
Definition set_sel (n : Z) (s : state) : state :=
  mk_state (index_query s) (index_results s) n (location s).
Definition assign_location (u : string) (s : state) : state :=
  mk_state (index_query s) (index_results s) (sel_idx s) (Some u).

(** After [dom:loaded]: [let sel_idx = -1] and [clear_search_index()]. *)
Definition initial_state : state := mk_state EmptyString hidden_empty (-1) None.

Definition clear_search_index (s : state) : state :=
  set_results hidden_empty (set_query EmptyString s).

Definition render_link (m : match_rec) : string * string := (url m, title m).

Definition render_item (m : match_rec) : item :=
  let '(href, text) := render_link m in mk_item (selected m) href text.

(** [list[n]['selected'] = true] *)
Fixpoint mark_selected (n : nat) (l : list match_rec) : list match_rec :=
  match l, n with
  | [], _ => []
  | m :: l', O => mk_match (title m) (url m) (score m) (title_lc m) true :: l'
  | m :: l', S n' => m :: mark_selected n' l'
  end.

Definition render_results (sel : Z) (list : list match_rec) : display :=
  let list :=
    if (0 <=? sel) && (sel <? Z.of_nat (List.length list))
    then mark_selected (Z.to_nat sel) list else list in
  mk_display (map render_item list) true.

(** ** Key handling *)

Inductive key_code := ArrowDown | ArrowUp | Enter | OtherKey (code : string).

(** [list[sel_idx]['url']]: reading a property of [undefined] throws. *)
Definition url_at (list : list match_rec) (n : Z) : result string :=
  if n <? 0 then Throws TypeError
  else match nth_error list (Z.to_nat n) with
       | Some m => Ok (url m)
       | None => Throws TypeError
       end.

Definition search_index (site_index : option index) (code : key_code) (s : state)
  : result state :=
  match search_list site_index (index_query s) with
  | Unmodelled => Unmodelled
  | Throws e => Throws e
  | Ok list =>
      if (0 <? List.length list)%nat then
        match code with
        | ArrowDown =>
            let n := Z.min (sel_idx s + 1) (Z.of_nat (List.length list) - 1) in
            Ok (set_results (render_results n list) (set_sel n s))
        | ArrowUp =>
            let n := Z.max (sel_idx s - 1) 0 in
            Ok (set_results (render_results n list) (set_sel n s))
        | Enter =>
            let target := if sel_idx s =? -1 then url_at list 0 else url_at list (sel_idx s) in
            match target with
            | Ok u => Ok (clear_search_index (assign_location u s))
            | Throws e => Throws e
            | Unmodelled => Unmodelled
            end
        | OtherKey _ =>
            Ok (set_results (render_results (-1) list) (set_sel (-1) s))
        end
      else Ok (set_results hidden_empty s)
  end.

(** ** Events *)

(** [Keyup v code]: a key is released in the query field, whose value is
    then [v]; [Click]: a click anywhere in the document; [SlashKey]: the
    Mousetrap binding of ["/"]. *)
Inductive event := Keyup (value : string) (code : key_code) | Click | SlashKey.

(** One event handler run.  A thrown exception aborts the handler, leaving
    the state as it was when it threw; [None] marks a query outside the
    modelled regular-expression fragment. *)
Definition step (site_index : option index) (s : state) (e : event) : option state :=
  match e with
  | Keyup v code =>
      let s := set_query v s in
      match search_index site_index code s with
      | Ok s' => Some s'
      | Throws _ => Some s
      | Unmodelled => None
      end
  | Click | SlashKey => Some (clear_search_index s)
  end.

Fixpoint run (site_index : option index) (s : state) (evs : list event) : option state :=
  match evs with
  | [] => Some s
  | e :: evs' =>
      match step site_index s e with
      | Some s' => run site_index s' evs'
      | None => None
      end
  end.

(** ** The specification's notions *)

(** [t] starts with [q], ignoring case (lowercase normalisation). *)
Definition starts_with_ci (q t : string) : bool := prefix (toLowerCase q) (toLowerCase t).

Fixpoint contains (q t : string) : bool :=
  prefix q t || match t with EmptyString => false | String _ t' => contains q t' end.

Definition contains_ci (q t : string) : bool := contains (toLowerCase q) (toLowerCase t).

(** The score formula of the specification, its arithmetic on JavaScript
    numbers (doubles). *)
Definition spec_score (q t : string) : Q :=
  if starts_with_ci q t then js_mul (js_div (js_length q) (js_length t)) 10
  else if contains_ci q t then js_div (js_length q) (js_length t)
  else 0.

(** A query with no regular-expression special character. *)
Definition no_meta (q : string) : bool :=
  forallb (fun c => negb ((c =? ".")%char || existsb (Ascii.eqb c) unmodelled_chars))
          (list_ascii_of_string q).

(** A query without special characters, as a pattern. *)
Fixpoint literal_pattern (q : string) : list atom :=
  match q with
  | EmptyString => []
  | String c q' => AChar c :: literal_pattern q'
  end.

(** Invariant of the state machine for the cursor: none, or the current
    query matches nothing, or a valid index of the current ranked list. *)
Definition cursor_ok (site_index : option index) (s : state) : Prop :=
  match search_list site_index (index_query s) with
  | Ok l => sel_idx s = -1 \/ l = [] \/ (0 <= sel_idx s < Z.of_nat (List.length l))
  | _ => True
  end.

(** The navigation keys (arrows, Enter) do not change the query text. *)
Definition keeps_query (s : state) (e : event) : Prop :=
  match e with
  | Keyup v (ArrowDown | ArrowUp | Enter) => v = index_query s
  | _ => True
  end.

Fixpoint nav_keys_keep_query (site_index : option index) (s : state) (evs : list event)
  : Prop :=
  match evs with
  | [] => True
  | e :: evs' =>
      keeps_query s e /\
      match step site_index s e with
      | Some s' => nav_keys_keep_query site_index s' evs'
      | None => True
      end
  end.

(** ** A sample index *)

Definition monsters : index :=
  [("Goblin", "/goblin"); ("Gorgon", "/gorgon"); ("Gorgonzola", "/gorgonzola")]%string.

(** The ranked list of the query ["Go"] over [monsters]. *)
Definition ranked_go : list match_rec :=
  firstn 10 (sort_matches (collect (literal_pattern "Go") "Go" monsters)).

(** * The cookie store (tk/cookie.js) *)


Local Open Scope N_scope.

(** ** Values and outcomes *)

(** The exceptions of the cookie code: a [js_error], the [URIError] of
    [decodeURIComponent] or the [SyntaxError] of [JSON.parse]. *)
Inductive exn := JsError (e : js_error) | URIError | SyntaxError.

(** [Outside] marks an input beyond the modelled fragment. *)
Inductive outcome (A : Type) :=
| Value (a : A)
| Raise (e : exn)
| Outside.
Arguments Value {A} a.
Arguments Raise {A} e.
Arguments Outside {A}.

Definition obind {A B : Type} (o : outcome A) (f : A -> outcome B) : outcome B :=
  match o with
  | Value a => f a
  | Raise e => Raise e
  | Outside => Outside
  end.

Definition cons_out {A : Type} (x : A) (o : outcome (list A)) : outcome (list A) :=
  obind o (fun l => Value (x :: l)).

(** The values the site stores: strings, numbers (non-negative integers)
    and plain objects, whose properties are listed in creation order. *)
#[warnings="-register-all"]
Inductive jsval :=
| JStr (s : string)
| JNum (n : N)
| JObj (props : list (string * jsval)).

Definition truthy (v : jsval) : bool :=
  match v with
  | JStr s => negb (String.eqb s EmptyString)
  | JNum n => negb (N.eqb n 0)
  | JObj _ => true
  end.

(** A missing property reads as [undefined], which is falsy. *)
Definition truthy_opt (v : option jsval) : bool :=
  match v with Some v => truthy v | None => false end.

(** Property read, write and [delete] on an object whose properties are
    listed in creation order; a written property keeps its place, a new
    one comes last. *)
Fixpoint prop_get {A : Type} (k : string) (ps : list (string * A)) : option A :=
  match ps with
  | [] => None
  | (k', v) :: ps' => if String.eqb k k' then Some v else prop_get k ps'
  end.

Fixpoint prop_set {A : Type} (k : string) (v : A) (ps : list (string * A))
  : list (string * A) :=
  match ps with
  | [] => [(k, v)]
  | (k', v') :: ps' =>
      if String.eqb k k' then (k, v) :: ps' else (k', v') :: prop_set k v ps'
  end.

Definition prop_delete {A : Type} (k : string) (ps : list (string * A))
  : list (string * A) :=
  filter (fun kv => negb (String.eqb k (fst kv))) ps.

(** The objects of this code are ordinary objects whose prototype is
    [Object.prototype]; the lists above are their own properties.  These
    are the names of [Object.prototype]'s properties: read on an object
    with no own property of the name, each gives a function, or for
    [__proto__] the prototype itself; all are truthy. *)
Definition object_prototype_names : list string :=
  ["constructor"; "__defineGetter__"; "__defineSetter__"; "hasOwnProperty";
   "__lookupGetter__"; "__lookupSetter__"; "isPrototypeOf";
   "propertyIsEnumerable"; "toString"; "valueOf"; "__proto__";
   "toLocaleString"]%string.

Definition is_prototype_name (k : string) : bool :=
  existsb (String.eqb k) object_prototype_names.

(** [o[k]]: an own property, one inherited from [Object.prototype]
    (named by [k]), or [undefined]. *)
Inductive prop_read := Own (v : jsval) | Inherited (name : string) | Missing.

Definition js_read (k : string) (ps : list (string * jsval)) : prop_read :=
  match prop_get k ps with
  | Some v => Own v
  | None => if is_prototype_name k then Inherited k else Missing
  end.

Definition truthy_read (r : prop_read) : bool :=
  match r with
  | Own v => truthy v
  | Inherited _ => true
  | Missing => false
  end.

(** [o[k] = v] with a primitive [v]: an own property is written in place
    and a new one comes last, but with no own [__proto__] the name is
    [Object.prototype]'s accessor, whose setter ignores a primitive.  The
    other inherited properties are writable data properties: assigning
    one makes an own property. *)
Definition assign_primitive (k : string) (v : jsval) (ps : list (string * jsval))
  : list (string * jsval) :=
  match prop_get k ps with
  | Some _ => prop_set k v ps
  | None => if String.eqb k "__proto__" then ps else prop_set k v ps
  end.

(** [o[k] = v] for any value: an object assigned to a missing [__proto__]
    becomes the prototype of [o], which is not modelled. *)
Definition js_assign (k : string) (v : jsval) (ps : list (string * jsval))
  : outcome (list (string * jsval)) :=
  match v with
  | JObj _ =>
      match prop_get k ps with
      | Some _ => Value (prop_set k v ps)
      | None => if String.eqb k "__proto__" then Outside else Value (prop_set k v ps)
      end
  | _ => Value (assign_primitive k v ps)
  end.

(** [list.join(sep)] *)
Fixpoint join (sep : list ascii) (ls : list (list ascii)) : list ascii :=
  match ls with
  | [] => []
  | [x] => x
  | x :: ls' => x ++ sep ++ join sep ls'
  end.

(** ** [encodeURIComponent] and [decodeURIComponent] *)

(** A character of a string is one UTF-16 code unit below 256. *)
Definition is_digit (c : ascii) : bool :=
  (48 <=? N_of_ascii c) && (N_of_ascii c <=? 57).

Definition is_alpha (c : ascii) : bool :=
  let n := N_of_ascii c in
  ((65 <=? n) && (n <=? 90)) || ((97 <=? n) && (n <=? 122)).

Definition uri_mark : list ascii := list_ascii_of_string "-_.!~*'()".

Definition uri_unreserved (c : ascii) : bool :=
  is_alpha c || is_digit c || existsb (Ascii.eqb c) uri_mark.

Definition hex_upper (n : N) : ascii :=
  ascii_of_N (if n <? 10 then 48 + n else 55 + n).

Definition percent_byte (b : N) : list ascii :=
  ["%"%char; hex_upper (b / 16); hex_upper (b mod 16)].

(** Code units from 128 to 255 are two UTF-8 bytes. *)
Definition encode_char (c : ascii) : list ascii :=
  if uri_unreserved c then [c]
  else
    let n := N_of_ascii c in
    if n <? 128 then percent_byte n
    else percent_byte (192 + n / 64) ++ percent_byte (128 + n mod 64).

Definition encodeURIComponent (s : list ascii) : list ascii :=
  flat_map encode_char s.

Definition hex_value (c : ascii) : option N :=
  let n := N_of_ascii c in
  if (48 <=? n) && (n <=? 57) then Some (n - 48)
  else if (65 <=? n) && (n <=? 70) then Some (n - 55)
  else if (97 <=? n) && (n <=? 102) then Some (n - 87)
  else None.

(** A malformed escape throws [URIError]; escapes of bytes that decode
    to code units above 255, or to an invalid sequence, are not modelled. *)
Fixpoint decode_chars (l : list ascii) : outcome (list ascii) :=
  match l with
  | [] => Value []
  | c :: l1 =>
      if Ascii.eqb c "%" then
        match l1 with
        | h1 :: h2 :: l2 =>
            match hex_value h1, hex_value h2 with
            | Some a, Some b =>
                let byte := 16 * a + b in
                if byte <? 128 then cons_out (ascii_of_N byte) (decode_chars l2)
                else if (byte =? 194) || (byte =? 195) then
                  match l2 with
                  | p :: g1 :: g2 :: l3 =>
                      match Ascii.eqb p "%", hex_value g1, hex_value g2 with
                      | true, Some x, Some y =>
                          let cont := 16 * x + y in
                          if (128 <=? cont) && (cont <? 192)
                          then cons_out (ascii_of_N ((byte - 192) * 64 + (cont - 128)))
                                        (decode_chars l3)
                          else Outside
                      | _, _, _ => Outside
                      end
                  | _ => Outside
                  end
                else Outside
            | _, _ => Raise URIError
            end
        | _ => Raise URIError
        end
      else cons_out c (decode_chars l1)
  end.

Definition decodeURIComponent (s : list ascii) : outcome (list ascii) :=
  decode_chars s.

(** ** [JSON.stringify] *)

Definition dquote : ascii := ascii_of_N 34.
Definition backslash : ascii := ascii_of_N 92.

Definition hex_lower (n : N) : ascii :=
  ascii_of_N (if n <? 10 then 48 + n else 87 + n).

Definition json_escape (c : ascii) : list ascii :=
  let n := N_of_ascii c in
  if n =? 34 then [backslash; dquote]
  else if n =? 92 then [backslash; backslash]
  else if n =? 8 then [backslash; "b"%char]
  else if n =? 12 then [backslash; "f"%char]
  else if n =? 10 then [backslash; "n"%char]
  else if n =? 13 then [backslash; "r"%char]
  else if n =? 9 then [backslash; "t"%char]
  else if n <? 32 then
    [backslash; "u"%char; "0"%char; "0"%char; hex_lower (n / 16); hex_lower (n mod 16)]
  else [c].

Definition json_quote (s : list ascii) : list ascii :=
  dquote :: flat_map json_escape s ++ [dquote].

Definition digit_char (d : N) : ascii := ascii_of_N (48 + d).

Fixpoint decimal_aux (fuel : nat) (n : N) (acc : list ascii) : list ascii :=
  match fuel with
  | O => acc
  | S f =>
      let acc' := digit_char (n mod 10) :: acc in
      if n <? 10 then acc' else decimal_aux f (n / 10) acc'
  end.

(** The decimal digits of [n]; [N.size n] bits bound the digit count. *)
Definition decimal (n : N) : list ascii :=
  decimal_aux (S (N.to_nat (N.size n))) n [].

(** Integers from 2^53 on are not all doubles: not modelled. *)
Definition exact_limit : N := 2 ^ 53.

(** The members of an object, each written with [stringify]. *)
Definition json_members (stringify : jsval -> outcome (list ascii)) :=
  fix members (ps : list (string * jsval)) : outcome (list (list ascii)) :=
    match ps with
    | [] => Value []
    | (k, x) :: ps' =>
        obind (stringify x) (fun t =>
        obind (members ps') (fun ms =>
        Value ((json_quote (list_ascii_of_string k) ++ ":"%char :: t) :: ms)))
    end.

Fixpoint json_stringify (v : jsval) : outcome (list ascii) :=
  match v with
  | JStr s => Value (json_quote (list_ascii_of_string s))
  | JNum n => if n <? exact_limit then Value (decimal n) else Outside
  | JObj ps =>
      obind (json_members json_stringify ps)
        (fun ms => Value ("{"%char :: join [","%char] ms ++ ["}"%char]))
  end.

(** ** [JSON.parse] *)

(** The fragment: strings without escapes, non-negative integers, and
    objects whose members are such strings and integers, with no
    whitespace.  Other valid JSON text gives [Outside]. *)

Definition is_json_ws (c : ascii) : bool :=
  let n := N_of_ascii c in (n =? 32) || (n =? 9) || (n =? 10) || (n =? 13).

(** Characters that can start a JSON value outside the fragment. *)
Definition json_other_start (c : ascii) : bool :=
  is_json_ws c || existsb (Ascii.eqb c) (list_ascii_of_string "{[-tfn").

(** The characters of a string literal after its opening quote. *)
Fixpoint parse_string_body (l : list ascii) : outcome (list ascii * list ascii) :=
  match l with
  | [] => Raise SyntaxError
  | c :: l' =>
      let n := N_of_ascii c in
      if n =? 34 then Value ([], l')
      else if n =? 92 then Outside
      else if n <? 32 then Raise SyntaxError
      else obind (parse_string_body l') (fun '(s, r) => Value (c :: s, r))
  end.

Fixpoint digit_run (l : list ascii) : list ascii * list ascii :=
  match l with
  | c :: l' =>
      if is_digit c then let '(d, r) := digit_run l' in (c :: d, r) else ([], l)
  | [] => ([], [])
  end.

Definition digits_value (d : list ascii) : N :=
  fold_left (fun acc c => 10 * acc + (N_of_ascii c - 48)) d 0.

Definition parse_number (l : list ascii) : outcome (N * list ascii) :=
  let '(d, r) := digit_run l in
  let leading_zero := match d with c :: _ :: _ => Ascii.eqb c "0" | _ => false end in
  let fraction := match r with
                  | c :: _ => existsb (Ascii.eqb c) (list_ascii_of_string ".eE")
                  | [] => false
                  end in
  if leading_zero then Raise SyntaxError
  else if fraction then Outside
  else if digits_value d <? exact_limit then Value (digits_value d, r) else Outside.

(** A string or a number, with the text after it. *)
Definition parse_scalar (l : list ascii) : outcome (jsval * list ascii) :=
  match l with
  | [] => Raise SyntaxError
  | c :: l' =>
      if N_of_ascii c =? 34 then
        obind (parse_string_body l') (fun '(s, r) => Value (JStr (string_of_list_ascii s), r))
      else if is_digit c then
        obind (parse_number l) (fun '(n, r) => Value (JNum n, r))
      else if json_other_start c then Outside
      else Raise SyntaxError
  end.

(** Members after [{] or [,]; a repeated name keeps its first place and
    takes the last value.  Every member takes a character, so the
    length of the text bounds the recursion. *)
Fixpoint parse_members (fuel : nat) (l : list ascii) (acc : list (string * jsval))
  : outcome (list (string * jsval) * list ascii) :=
  match fuel with
  | O => Outside
  | S f =>
      let fail (c : ascii) := if is_json_ws c then Outside else Raise SyntaxError in
      match l with
      | [] => Raise SyntaxError
      | c :: l' =>
          if N_of_ascii c =? 34 then
            obind (parse_string_body l') (fun '(k, r) =>
            match r with
            | [] => Raise SyntaxError
            | c2 :: r' =>
                if Ascii.eqb c2 ":" then
                  obind (parse_scalar r') (fun '(v, r2) =>
                  let acc' := prop_set (string_of_list_ascii k) v acc in
                  match r2 with
                  | [] => Raise SyntaxError
                  | c3 :: r3 =>
                      if Ascii.eqb c3 "," then parse_members f r3 acc'
                      else if Ascii.eqb c3 "}" then Value (acc', r3)
                      else fail c3
                  end)
                else fail c2
            end)
          else fail c
      end
  end.

Definition json_parse (l : list ascii) : outcome jsval :=
  let top :=
    match l with
    | [] => Raise SyntaxError
    | c :: l' =>
        if Ascii.eqb c "{" then
          match l' with
          | [] => Raise SyntaxError
          | c2 :: r =>
              if Ascii.eqb c2 "}" then Value (JObj [], r)
              else obind (parse_members (length l') l' []) (fun '(ps, r) => Value (JObj ps, r))
          end
        else parse_scalar l
    end in
  obind top (fun '(v, r) =>
    match r with
    | [] => Value v
    | c :: _ => if is_json_ws c then Outside else Raise SyntaxError
    end).

(** ** Options and dates *)

(** What the page's environment supplies: [Date.prototype.toUTCString]
    and the time values of [forthwith] and [never], dates built in the
    local time zone.  [fix_time] leaves them as they are: its skew
    [new Date(0).getTime()] is 0. *)
Record cookie_env := mk_cookie_env {
  to_utc_string : Z -> list ascii;
  forthwith : Z;
  never : Z
}.

(** Values of an options object: strings, booleans and Dates. *)
Inductive optval := OStr (s : string) | OBool (b : bool) | ODate (t : Z).

Definition opt_truthy (v : optval) : bool :=
  match v with
  | OStr s => negb (String.eqb s EmptyString)
  | OBool b => b
  | ODate _ => true
  end.

Definition truthy_optval (v : option optval) : bool :=
  match v with Some v => opt_truthy v | None => false end.

Definition cookie_opts := list (string * optval).

Definition default_opts : cookie_opts :=
  [("domain", OStr ".bin.sh"); ("path", OStr "/"); ("secure", OBool true)]%string.

(** A template literal [`${value}`]; a Date prints in local time, which
    is not modelled. *)
Definition template_string (v : optval) : outcome (list ascii) :=
  match v with
  | OStr s => Value (list_ascii_of_string s)
  | OBool b => Value (list_ascii_of_string (if b then "true" else "false"))
  | ODate _ => Outside
  end.

(** A string other than ['now'] and ['never'] has no [toUTCString]:
    calling [undefined] throws a TypeError. *)
Definition expires_fn (env : cookie_env) (date : optval) : outcome (list ascii) :=
  let date :=
    match date with
    | OStr s =>
        if String.eqb s "now" then ODate (forthwith env)
        else if String.eqb s "never" then ODate (never env)
        else date
    | _ => date
    end in
  match date with
  | ODate t => Value (list_ascii_of_string "expires=" ++ to_utc_string env t)
  | _ => Raise (JsError TypeError)
  end.

Definition opt_steps (env : cookie_env)
  : list (string * (optval -> outcome (list ascii))) :=
  [("expires"%string, expires_fn env);
   ("domain"%string, fun v => obind (template_string v)
                         (fun s => Value (list_ascii_of_string "domain=" ++ s)));
   ("path"%string, fun v => obind (template_string v)
                       (fun s => Value (list_ascii_of_string "path=" ++ s)));
   ("secure"%string, fun _ => Value (list_ascii_of_string "secure"))].

(** [if (value = opts[k]) ... else if (value = default_opts[k]) ...] *)
Definition opt_choice (o : cookie_opts) (k : string) : option optval :=
  if truthy_optval (prop_get k o) then prop_get k o
  else if truthy_optval (prop_get k default_opts) then prop_get k default_opts
  else None.

Fixpoint opt_parts (steps : list (string * (optval -> outcome (list ascii))))
    (o : cookie_opts) : outcome (list (list ascii)) :=
  match steps with
  | [] => Value []
  | (k, fn) :: steps' =>
      match opt_choice o k with
      | Some v => obind (fn v) (fun p => obind (opt_parts steps' o) (fun ps => Value (p :: ps)))
      | None => opt_parts steps' o
      end
  end.

(** ** The vault and [document.cookie] *)

(** [vault], and the lines assigned to [document.cookie], latest first. *)
Record store := mk_store {
  vault : list (string * jsval);
  written : list (list ascii)
}.

Definition cookie_value (value : jsval) : outcome (list ascii) :=
  match value with
  | JStr s => Value (encodeURIComponent (list_ascii_of_string s))
  | _ => obind (json_stringify value)
           (fun j => Value (list_ascii_of_string "json:" ++ encodeURIComponent j))
  end.

(** [`${key}=${value}`] *)
Definition cookie_pair (key : string) (value : jsval) : outcome (list ascii) :=
  obind (cookie_value value) (fun v => Value (list_ascii_of_string key ++ "="%char :: v)).

Definition semi_sep : list ascii := [";"%char; " "%char].

(** [opts = None] is a missing argument: [opts[step.key]] then throws. *)
Definition set_cookie (env : cookie_env) (key : string) (value : jsval)
    (opts : option cookie_opts) (st : store) : store * outcome unit :=
  match js_assign key value (vault st) with
  | Value vs =>
      let st1 := mk_store vs (written st) in
      let line :=
        obind (cookie_pair key value) (fun pair =>
        match opts with
        | None => Raise (JsError TypeError)
        | Some o => obind (opt_parts (opt_steps env) o) (fun ps => Value (join semi_sep (pair :: ps)))
        end) in
      match line with
      | Value l => (mk_store (vault st1) (l :: written st1), Value tt)
      | Raise e => (st1, Raise e)
      | Outside => (st1, Outside)
      end
  | _ => (st, Outside)
  end.

(** [opts.expires = never] writes into the caller's object. *)
Definition persistent_cookie (env : cookie_env) (key : string) (value : jsval)
    (opts : option cookie_opts) (st : store) : store * outcome unit :=
  let opts :=
    match opts with
    | Some o => prop_set "expires" (ODate (never env)) o
    | None => [("expires", ODate (never env))]
    end%string in
  set_cookie env key value (Some opts) st.

(** [cookie[chip] = value] changes the vault's own object; on a primitive
    the assignment does nothing (the script is not strict). *)
Definition set_chip (chip : string) (value : jsval) (o : jsval) : outcome jsval :=
  match o with
  | JObj ps => obind (js_assign chip value ps) (fun ps' => Value (JObj ps'))
  | _ => Value o
  end.

(** An inherited [vault[key]] is a built-in function, or [Object.prototype]
    for [__proto__]: setting a chip on it is not modelled. *)
Definition set_cookie_chip (env : cookie_env) (key chip : string) (value : jsval)
    (opts : option cookie_opts) (st : store) : store * outcome unit :=
  let cookie :=
    match js_read key (vault st) with
    | Own v => if truthy v then Value v else Value (JObj [])
    | Missing => Value (JObj [])
    | Inherited _ => Outside
    end in
  match obind cookie (set_chip chip value) with
  | Value c => persistent_cookie env key c opts st
  | _ => (st, Outside)
  end.

(** [delete vault[key]] removes an own property and does nothing for an
    inherited one. *)
Definition delete_cookie (env : cookie_env) (key : string) (opts : option cookie_opts)
    (st : store) : store * outcome unit :=
  if truthy_read (js_read key (vault st)) then
    let st1 := mk_store (prop_delete key (vault st)) (written st) in
    let opts :=
      match opts with
      | Some o => prop_set "expires" (ODate (forthwith env)) o
      | None => [("expires", ODate (forthwith env))]
      end%string in
    set_cookie env key (JStr EmptyString) (Some opts) st1
  else (st, Value tt).

Inductive cookie_read := Entry (v : prop_read) | WholeVault (v : list (string * jsval)).

Definition get_cookie (key : string) (st : store) : cookie_read :=
  if String.eqb key EmptyString then WholeVault (vault st) else Entry (js_read key (vault st)).

(** ** [load_cookies] *)

Definition cons_head (c : ascii) (ls : list (list ascii)) : list (list ascii) :=
  match ls with
  | x :: r => (c :: x) :: r
  | [] => [[c]]
  end.

(** [s.split('=')] *)
Fixpoint split_eq (l : list ascii) : list (list ascii) :=
  match l with
  | [] => [[]]
  | c :: l' => if Ascii.eqb c "=" then [] :: split_eq l' else cons_head c (split_eq l')
  end.

(** [s.split('; ')] *)
Fixpoint split_semi (l : list ascii) : list (list ascii) :=
  match l with
  | [] => [[]]
  | c :: l' =>
      match l' with
      | d :: l'' =>
          if Ascii.eqb c ";" && Ascii.eqb d " " then [] :: split_semi l''
          else cons_head c (split_semi l')
      | [] => cons_head c (split_semi l')
      end
  end.

Fixpoint strip_prefix (p l : list ascii) : option (list ascii) :=
  match p, l with
  | [], _ => Some l
  | a :: p', b :: l' => if Ascii.eqb a b then strip_prefix p' l' else None
  | _ :: _, [] => None
  end.

Fixpoint take_line (l : list ascii) : list ascii :=
  match l with
  | c :: l' => if is_line_terminator c then [] else c :: take_line l'
  | [] => []
  end.

(** [/^json:(.+)/.exec(value)], giving [match[1]]. *)
Definition json_tag (value : list ascii) : option (list ascii) :=
  match strip_prefix (list_ascii_of_string "json:") value with
  | Some rest =>
      match take_line rest with
      | [] => None
      | body => Some body
      end
  | None => None
  end.

(** [decodeURIComponent(undefined)] decodes the text ["undefined"]. *)
Definition load_one (cookie : list ascii) : outcome (string * jsval) :=
  let list := split_eq cookie in
  let key := hd [] list in
  let raw := match nth_error list 1 with
             | Some v => v
             | None => list_ascii_of_string "undefined"
             end in
  obind (decodeURIComponent raw) (fun value =>
    match json_tag value with
    | Some body => obind (json_parse body) (fun v => Value (string_of_list_ascii key, v))
    | None => Value (string_of_list_ascii key, JStr (string_of_list_ascii value))
    end).

Fixpoint load_segments (segs : list (list ascii)) (v : list (string * jsval))
  : outcome (list (string * jsval)) :=
  match segs with
  | [] => Value v
  | c :: segs' =>
      obind (load_one c) (fun '(k, x) => obind (js_assign k x v) (load_segments segs'))
  end.

(** Run when the script loads, on the empty vault; if it throws, the
    script stops before [get_cookie] and the other functions are
    published. *)
Definition load_cookies (document_cookie : list ascii) : outcome (list (string * jsval)) :=
  load_segments (split_semi document_cookie) [].

(** * Dark mode (ux/dark_mode.js) *)

(** The page: the cookie store, whether [body] has the class
    [dark_mode], and the value of the [toggle_dark_mode] button when the
    page has one.  The body starts without the class. *)
Record dark_page := mk_dark_page {
  dm_store : store;
  body_dark : bool;
  toggle_value : option string
}.

Definition enable_dark_mode (p : dark_page) : dark_page :=
  mk_dark_page (dm_store p) true (option_map (fun _ => "Undark Mode"%string) (toggle_value p)).

Definition disable_dark_mode (p : dark_page) : dark_page :=
  mk_dark_page (dm_store p) false (option_map (fun _ => "Dark Mode"%string) (toggle_value p)).

(** [get_cookie('dark_mode')]: ["dark_mode"] is no name of
    [Object.prototype], so the read is the vault's own property. *)
Definition dark_mode_loaded (st : store) (button : option string) : dark_page :=
  let p := mk_dark_page st false button in
  if truthy_opt (prop_get "dark_mode" (vault st)) then enable_dark_mode p else p.

Definition with_store (p : dark_page) (r : store * outcome unit) : dark_page * outcome unit :=
  (mk_dark_page (fst r) (body_dark p) (toggle_value p), snd r).

Definition toggle_dark_mode (env : cookie_env) (p : dark_page) : dark_page * outcome unit :=
  if truthy_opt (prop_get "dark_mode" (vault (dm_store p))) then
    let p := disable_dark_mode p in
    with_store p (delete_cookie env "dark_mode" None (dm_store p))
  else
    let p := enable_dark_mode p in
    with_store p (persistent_cookie env "dark_mode" (JNum 1) None (dm_store p)).

(** * Sidebar sections (nav/sidebar.js) *)

Definition default_nav : list (string * jsval) :=
  [("0db377921f4ce762c62526131097968f", JStr "show");
   ("f8e19bfcbc718a84ee8ed8aae472f9e2", JStr "show");
   ("2bff9972bf9bd1a818caa7eaa4083dc3", JStr "show")]%string.

Definition always_open (list_id : string) : bool :=
  String.eqb list_id "cff1be7f7b27cf1ec2e7be8bcc63df62" ||
  String.eqb list_id "317705e402a8529da72a44045db42bf3".

(** The own property [k] of an object. *)
Definition js_get (k : string) (o : jsval) : option jsval :=
  match o with JObj ps => prop_get k ps | _ => None end.

(** [state[list_id] == 'show'].  Only the string ['show'] is loosely equal
    to it: an inherited property of an object is a function or
    [Object.prototype], and a property of a string or number is a
    one-character string, a number or a function, none equal to it; so
    only own properties of objects matter. *)
Definition shows (v : option jsval) : bool :=
  match v with Some (JStr s) => String.eqb s "show" | _ => false end.

(** [state[list_id] = 'show']: a string, assigned as [set_chip] does, which
    never leaves the model for a primitive value. *)
Definition set_show (id : string) (o : jsval) : jsval :=
  match o with
  | JObj ps => JObj (assign_primitive id (JStr "show") ps)
  | _ => o
  end.

(** The page: the cookie store, the module's [default_nav] object, and
    each section's list id with whether the list is visible. *)
Record nav_page := mk_nav_page {
  nav_store : store;
  nav_defaults : list (string * jsval);
  sections : list (string * bool)
}.

(** [page_lists]: the list ids of the links to the current page, in
    document order; [ids]: the list ids of the sections.  [state] is the
    vault's own [nav] property when that is truthy (["nav"] is no name of
    [Object.prototype]), else [default_nav]. *)
Definition init_sidebar_nav (st : store) (defaults : list (string * jsval))
    (page_lists ids : list string) : nav_page :=
  let from_vault := truthy_opt (prop_get "nav" (vault st)) in
  let state0 := match prop_get "nav" (vault st) with
                | Some v => if truthy v then v else JObj defaults
                | None => JObj defaults
                end in
  let state := fold_left (fun s id => set_show id s) page_lists state0 in
  let st' := if from_vault then mk_store (prop_set "nav" state (vault st)) (written st) else st in
  let defaults' := if from_vault then defaults
                   else match state with JObj ps => ps | _ => defaults end in
  let visible id := always_open id || shows (js_get id state) in
  mk_nav_page st' defaults' (map (fun id => (id, visible id)) ids).

Definition visible_in (id : string) (p : nav_page) : bool :=
  match prop_get id (sections p) with Some b => b | None => false end.

(** A click on the heading of the section with list [id]. *)
Definition toggle_section (env : cookie_env) (id : string) (p : nav_page)
  : nav_page * outcome unit :=
  let vis := visible_in id p in
  let r := set_cookie_chip env "nav" id (JStr (if vis then "hide" else "show")) None (nav_store p) in
  (mk_nav_page (fst r) (nav_defaults p) (prop_set id (negb vis) (sections p)), snd r).

(** ** Notions for the properties of the cookie code *)

(** Characters [JSON.stringify] writes as they are and [JSON.parse]
    reads without an escape. *)
Definition plain_char (c : ascii) : bool :=
  let n := N_of_ascii c in negb (n =? 34) && negb (n =? 92) && negb (n <? 32).

Definition plain_text (s : string) : bool := forallb plain_char (list_ascii_of_string s).

Definition scalar_ok (v : jsval) : bool :=
  match v with
  | JStr s => plain_text s
  | JNum n => n <? exact_limit
  | JObj _ => false
  end.

Fixpoint keys_distinct {A : Type} (ps : list (string * A)) : bool :=
  match ps with
  | [] => true
  | (k, _) :: ps' =>
      match prop_get k ps' with None => keys_distinct ps' | Some _ => false end
  end.

(** Values whose JSON text is in the modelled fragment. *)
Definition json_ok (v : jsval) : bool :=
  match v with
  | JObj ps => forallb (fun kv => plain_text (fst kv) && scalar_ok (snd kv)) ps && keys_distinct ps
  | _ => scalar_ok v
  end.

(** A key free of [=] and [;], other than [__proto__]: [vault['__proto__']]
    is [Object.prototype]'s accessor, not a property of the vault. *)
Definition key_chars_ok (k : string) : bool :=
  forallb (fun c => negb (Ascii.eqb c "=") && negb (Ascii.eqb c ";")) (list_ascii_of_string k).

Definition key_ok (k : string) : bool := key_chars_ok k && negb (String.eqb k "__proto__").

(** A string is stored as it is unless it looks like a JSON cookie. *)
Definition value_ok (v : jsval) : bool :=
  match v with
  | JStr s => match json_tag (list_ascii_of_string s) with None => true | Some _ => false end
  | _ => json_ok v
  end.

(** The browser keeps the name-value pair of a cookie line, the text
    before its first [;], and hands it back in [document.cookie]. *)
Fixpoint before_semi (l : list ascii) : list ascii :=
  match l with
  | c :: l' => if Ascii.eqb c ";" then [] else c :: before_semi l'
  | [] => []
  end.

(** [n] clicks on the dark mode button. *)
Fixpoint toggles (env : cookie_env) (n : nat) (p : dark_page) : dark_page :=
  match n with
  | O => p
  | S n' => toggles env n' (fst (toggle_dark_mode env p))
  end.


(** ** Notions for the round trips *)

(** Characters that can stand in a cookie value as it is written. *)
Definition cookie_char (c : ascii) : bool :=
  negb (Ascii.eqb c ";") && negb (Ascii.eqb c "=") && negb (is_line_terminator c).

(** A number ends where no digit, [.], [e] or [E] follows. *)
Definition stops_number (r : list ascii) : Prop :=
  match r with
  | c :: _ => is_digit c = false /\ existsb (Ascii.eqb c) (list_ascii_of_string ".eE") = false
  | [] => True
  end.

Definition text_char (c : ascii) : bool := negb (is_line_terminator c).

Definition member_ok (kv : string * jsval) : bool := plain_text (fst kv) && scalar_ok (snd kv).

(** A non-empty text on one line, as [/^json:(.+)/] captures it. *)
Definition text_ok (t : list ascii) : bool :=
  negb (match t with [] => true | _ => false end) && forallb text_char t.

Definition no_eq (c : ascii) : bool := negb (Ascii.eqb c "=").
Definition no_semi (c : ascii) : bool := negb (Ascii.eqb c ";").

Local Close Scope N_scope.

(** The order of the ranked list: scores never increase. *)
Definition score_desc (a b : match_rec) : Prop := (score b <= score a)%Q.

(** ** Case folding *)

Lemma lower_upper (a : ascii) : to_lower_ascii (to_upper_ascii a) = to_lower_ascii a.
Proof. destruct a as [[|] [|] [|] [|] [|] [|] [|] [|]]; vm_compute; reflexivity. Qed.

Lemma upper_lower (a : ascii) : to_upper_ascii (to_lower_ascii a) = to_upper_ascii a.
Proof. destruct a as [[|] [|] [|] [|] [|] [|] [|] [|]]; vm_compute; reflexivity. Qed.

(** Comparing canonicalised (uppercased) characters is comparing their
    lowercase forms. *)
Lemma canonicalize_eqb (a b : ascii) :
  (to_upper_ascii a =? to_upper_ascii b)%char = (to_lower_ascii a =? to_lower_ascii b)%char.
Proof.
  destruct (Ascii.eqb_spec (to_upper_ascii a) (to_upper_ascii b)) as [E|E];
  destruct (Ascii.eqb_spec (to_lower_ascii a) (to_lower_ascii b)) as [F|F]; auto.
  - exfalso; apply F. rewrite <- lower_upper, E, lower_upper. reflexivity.
  - exfalso; apply E. rewrite <- upper_lower, F, upper_lower. reflexivity.
Qed.

(** ** The regular expressions of a literal query *)

Lemma compile_no_meta (q : string) :
  no_meta q = true -> compile q = Some (literal_pattern q).
Proof.
  induction q as [|c q IH]; intros H; [reflexivity|].
  assert (Hc : negb ((c =? ".")%char || existsb (Ascii.eqb c) unmodelled_chars) = true
               /\ no_meta q = true) by (apply andb_prop; exact H).
  destruct Hc as [Hc Hq]. cbn [compile].
  destruct ((c =? ".")%char); [discriminate Hc|].
  destruct (existsb (Ascii.eqb c) unmodelled_chars); [discriminate Hc|].
  rewrite IH by exact Hq. reflexivity.
Qed.

Lemma match_here_literal (q t : string) :
  match_here (literal_pattern q) t = prefix (toLowerCase q) (toLowerCase t).
Proof.
  revert t; induction q as [|c q IH]; intros t; [destruct t; reflexivity|].
  destruct t as [|d t]; [reflexivity|].
  simpl. unfold atom_matches. rewrite canonicalize_eqb.
  destruct (ascii_dec (to_lower_ascii c) (to_lower_ascii d)) as [E|E].
  - rewrite E, Ascii.eqb_refl. apply IH.
  - apply Ascii.eqb_neq in E. rewrite E. reflexivity.
Qed.

Lemma match_anywhere_literal (q t : string) :
  match_anywhere (literal_pattern q) t = contains (toLowerCase q) (toLowerCase t).
Proof.
  induction t as [|d t IH].
  - simpl. rewrite match_here_literal. destruct q; reflexivity.
  - simpl match_anywhere. rewrite IH, match_here_literal. reflexivity.
Qed.

Lemma score_of_literal (q t : string) :
  score_of (literal_pattern q) q t = spec_score q t.
Proof.
  unfold score_of, spec_score, starts_with_ci, contains_ci.
  rewrite match_here_literal, match_anywhere_literal. reflexivity.
Qed.

Lemma match_here_anywhere (p : list atom) (t : string) :
  match_here p t = true -> match_anywhere p t = true.
Proof. intros H. destruct t; simpl; rewrite H; reflexivity. Qed.

Lemma Q_gt_zero_refl : Q_gt 0 0 = false.
Proof. reflexivity. Qed.

(** A positive score means the partial pattern matches. *)
Lemma score_pos_matches (p : list atom) (q t : string) :
  Q_gt (score_of p q t) 0 = true -> match_anywhere p t = true.
Proof.
  unfold score_of. destruct (match_here p t) eqn:E.
  - intros _. apply match_here_anywhere, E.
  - destruct (match_anywhere p t); [reflexivity|]. rewrite Q_gt_zero_refl. discriminate.
Qed.

Lemma Q_gt_0_iff (x : Q) : Q_gt x 0 = true <-> (0 < x)%Q.
Proof.
  unfold Q_gt. rewrite (Qgt_alt x 0%Q).
  destruct (x ?= 0)%Q; split; congruence.
Qed.

Lemma js_length_pos (s : string) : s <> EmptyString -> (0 < js_length s)%Q.
Proof.
  intros H. unfold js_length. change 0%Q with (inject_Z 0). rewrite <- Zlt_Qlt.
  destruct s; [contradiction|]. simpl. lia.
Qed.

(** Rounding keeps a positive number positive: below 2^e, with [e] at
    most [log2 n - log2 d - 52], lies at least one unit of [n / d]. *)
Lemma scale_ge (n d e a b : Z) : 0 < n -> 0 < d -> e <= Z.log2 n - Z.log2 d - 1 ->
  scale n d e = (a, b) -> 0 < b /\ b <= a.
Proof.
  intros Hn Hd He Hs.
  destruct (Z.log2_spec n Hn) as [Hn1 Hn2].
  destruct (Z.log2_spec d Hd) as [Hd1 Hd2].
  pose proof (Z.log2_nonneg n). pose proof (Z.log2_nonneg d).
  unfold scale in Hs. destruct (e <? 0) eqn:E; injection Hs as <- <-.
  - apply Z.ltb_lt in E. split; [exact Hd|].
    assert (H1 : 2 ^ Z.succ (Z.log2 d) <= 2 ^ (Z.log2 n + - e)) by (apply Z.pow_le_mono_r; lia).
    rewrite Z.pow_add_r in H1 by lia.
    assert (H2 : 2 ^ Z.log2 n * 2 ^ (- e) <= n * 2 ^ (- e)).
    { apply Z.mul_le_mono_nonneg_r; [apply Z.pow_nonneg|]; lia. }
    lia.
  - apply Z.ltb_ge in E.
    assert (Hp : 0 < 2 ^ e) by (apply Z.pow_pos_nonneg; lia).
    split; [nia|].
    assert (H1 : 2 ^ (Z.succ (Z.log2 d) + e) <= 2 ^ Z.log2 n) by (apply Z.pow_le_mono_r; lia).
    rewrite Z.pow_add_r in H1 by lia.
    nia.
Qed.

Lemma ulp_exponent_le (n d : Z) : ulp_exponent n d <= Z.log2 n - Z.log2 d - 52.
Proof.
  unfold ulp_exponent. destruct (scale n d _) as [a b]. destruct (a / b <? 2 ^ 52); lia.
Qed.

Lemma round53_pos (n d : Z) : 0 < n -> 0 < d -> (0 < round53 n d)%Q.
Proof.
  intros Hn Hd. unfold round53.
  pose proof (ulp_exponent_le n d) as He.
  destruct (scale n d (ulp_exponent n d)) as [a b] eqn:Hs.
  destruct (scale_ge n d (ulp_exponent n d) a b Hn Hd ltac:(lia) Hs) as [Hb Hab].
  assert (Hm : 1 <= a / b) by (apply Z.div_le_lower_bound; lia).
  assert (G : forall m e, 1 <= m ->
    (0 < (if e <? 0 then m # Z.to_pos (2 ^ (- e)) else inject_Z (m * 2 ^ e)))%Q).
  { intros m e Hm1. destruct (e <? 0) eqn:E.
    - unfold Qlt. cbn [Qnum Qden]. lia.
    - apply Z.ltb_ge in E. change 0%Q with (inject_Z 0). rewrite <- Zlt_Qlt.
      assert (0 < 2 ^ e) by (apply Z.pow_pos_nonneg; lia). nia. }
  cbv beta iota zeta. apply G. destruct (_ || _); lia.
Qed.

Lemma round_double_pos (x : Q) : (0 < x)%Q -> (0 < round_double x)%Q.
Proof.
  intros H. unfold Qlt in H. cbn [Qnum Qden] in H. unfold round_double.
  destruct (Qnum x) eqn:E; [lia| |lia]. apply round53_pos; lia.
Qed.

Lemma js_div_pos (x y : Q) : (0 < x)%Q -> (0 < y)%Q -> (0 < js_div x y)%Q.
Proof.
  intros Hx Hy. apply round_double_pos. unfold Qdiv.
  apply Qmult_lt_0_compat; [exact Hx|apply Qinv_lt_0_compat, Hy].
Qed.

Lemma js_mul_pos (x y : Q) : (0 < x)%Q -> (0 < y)%Q -> (0 < js_mul x y)%Q.
Proof. intros Hx Hy. apply round_double_pos, Qmult_lt_0_compat; assumption. Qed.

Lemma ratio_pos (a b : string) :
  a <> EmptyString -> b <> EmptyString -> (0 < js_div (js_length a) (js_length b))%Q.
Proof. intros Ha Hb. apply js_div_pos; apply js_length_pos; assumption. Qed.

(** ** Sorting and collecting *)

Lemma insert_match_perm (x : match_rec) (l : list match_rec) :
  Permutation (insert_match x l) (x :: l).
Proof.
  induction l as [|y l IH]; simpl; [reflexivity|].
  destruct (compare_matches x y <? 0); [reflexivity|].
  rewrite IH. apply perm_swap.
Qed.

Lemma sort_matches_perm (l : list match_rec) : Permutation (sort_matches l) l.
Proof.
  unfold sort_matches.
  assert (G : forall acc, Permutation (fold_left (fun acc x => insert_match x acc) l acc)
                                      (l ++ acc)).
  { induction l as [|x l IH]; intros acc; simpl; [reflexivity|].
    rewrite IH, insert_match_perm. apply Permutation_sym, Permutation_middle. }
  rewrite G, app_nil_r. reflexivity.
Qed.

Lemma collect_in (p : list atom) (q : string) (keys : index) (m : match_rec) :
  In m (collect p q keys) ->
  In (title m, url m) keys /\ score m = score_of p q (title m) /\
  Q_gt (score m) 0 = true /\ selected m = false.
Proof.
  induction keys as [|[t u] keys IH]; simpl; [tauto|].
  destruct (Q_gt (score_of p q t) 0) eqn:E.
  - intros [<-|H]; [simpl; auto|].
    destruct (IH H) as (? & ? & ? & ?); auto.
  - intros H. destruct (IH H) as (? & ? & ? & ?); auto.
Qed.

Lemma collect_complete (p : list atom) (q t u : string) (keys : index) :
  In (t, u) keys -> Q_gt (score_of p q t) 0 = true ->
  In (mk_match t u (score_of p q t) String_prototype_toLowerCase false) (collect p q keys).
Proof.
  intros Hin Hs. induction keys as [|[t' u'] keys IH]; [destruct Hin|].
  destruct Hin as [E|Hin].
  - injection E as -> ->. simpl. rewrite Hs. left; reflexivity.
  - simpl. destruct (Q_gt (score_of p q t') 0); [right|]; auto.
Qed.

(** The ranked list of one pass: the first 10 entries of the sorted
    candidates. *)
Lemma search_list_ranked (keys : index) (q : string) (p : list atom) :
  compile q = Some p ->
  search_list (Some keys) q = Ok (firstn 10 (sort_matches (collect p q keys))).
Proof.
  intros Hp. unfold search_list. rewrite Hp.
  destruct (0 <? List.length (collect p q keys))%nat eqn:E.
  - destruct (10 <? List.length (sort_matches (collect p q keys)))%nat eqn:F;
      [reflexivity|].
    apply Nat.ltb_ge in F. rewrite firstn_all2 by exact F. reflexivity.
  - apply Nat.ltb_ge in E. destruct (collect p q keys); [reflexivity|simpl in E; lia].
Qed.

Lemma search_list_in (keys : index) (q : string) (l : list match_rec) (m : match_rec) :
  search_list (Some keys) q = Ok l -> In m l ->
  exists p, compile q = Some p /\ In m (collect p q keys).
Proof.
  destruct (compile q) as [p|] eqn:Hp.
  - rewrite (search_list_ranked keys q p Hp). intros H Hm.
    assert (E : l = firstn 10 (sort_matches (collect p q keys))) by congruence.
    subst l. exists p. split; auto.
    assert (Hs : In m (sort_matches (collect p q keys))).
    { rewrite <- (firstn_skipn 10 (sort_matches _)). apply in_or_app; left; exact Hm. }
    eapply Permutation_in; [apply sort_matches_perm|exact Hs].
  - unfold search_list. rewrite Hp. discriminate.
Qed.

Lemma search_list_length (keys : index) (q : string) (l : list match_rec) (p : list atom) :
  compile q = Some p -> search_list (Some keys) q = Ok l ->
  List.length l = Nat.min 10 (List.length (collect p q keys)).
Proof.
  intros Hp. rewrite (search_list_ranked keys q p Hp). intros H.
  assert (E : l = firstn 10 (sort_matches (collect p q keys))) by congruence.
  subst l. rewrite length_firstn, (Permutation_length (sort_matches_perm _)). reflexivity.
Qed.

(** Entries of a pass carry no selection mark. *)
Lemma search_list_unmarked (keys : index) (q : string) (l : list match_rec) :
  search_list (Some keys) q = Ok l -> Forall (fun m => selected m = false) l.
Proof.
  intros H. apply Forall_forall. intros m Hm.
  destruct (search_list_in keys q l m H Hm) as (p & _ & Hc).
  apply (collect_in p q keys m Hc).
Qed.

Lemma score_empty_query (p : list atom) (t : string) :
  p = [] -> Q_gt (score_of p EmptyString t) 0 = false.
Proof. intros ->. reflexivity. Qed.

Lemma search_list_empty_query (keys : index) : search_list (Some keys) EmptyString = Ok [].
Proof.
  rewrite (search_list_ranked keys EmptyString [] eq_refl).
  induction keys as [|[t u] keys IH]; [reflexivity|].
  cbn [collect]. rewrite score_empty_query by reflexivity. exact IH.
Qed.

Lemma contains_empty_title (q : string) :
  q <> EmptyString -> contains (toLowerCase q) EmptyString = false.
Proof. destruct q; [contradiction|reflexivity]. Qed.

Lemma spec_score_pos (q t : string) :
  q <> EmptyString -> contains_ci q t = true -> (0 < spec_score q t)%Q.
Proof.
  intros Hq Hc.
  assert (Ht : t <> EmptyString).
  { intros ->. unfold contains_ci in Hc. rewrite contains_empty_title in Hc by exact Hq.
    discriminate. }
  unfold spec_score. rewrite Hc.
  destruct (starts_with_ci q t).
  - apply js_mul_pos; [apply ratio_pos; assumption|reflexivity].
  - apply ratio_pos; assumption.
Qed.

(** ** Claims about one search pass *)

(** C1 (as stated, refuted): the empty query is contained in every title,
    yet the pass excludes every title. *)
Lemma C1_empty_query_counterexample :
  search_list (Some [("Goblin", "/goblin")]%string) EmptyString = Ok [] /\
  contains_ci EmptyString "Goblin" = true.
Proof. split; vm_compute; reflexivity. Qed.

(** C1 (amended): for a query without regular-expression special
    characters, every title in the ranked list contains the query
    case-insensitively and comes from the index; for a non-empty query, a
    title of the index containing it is in the ranked list unless the list
    already holds its maximum of 10 entries; the empty query yields the
    empty list, whatever the index. *)
Theorem C1_filter_sound_complete (keys : index) (q : string) (l : list match_rec) :
  no_meta q = true -> search_list (Some keys) q = Ok l ->
  (forall m, In m l -> contains_ci q (title m) = true /\ In (title m, url m) keys) /\
  (q <> EmptyString -> forall t u, In (t, u) keys -> contains_ci q t = true ->
     (exists m, In m l /\ title m = t) \/ List.length l = 10%nat) /\
  (q = EmptyString -> l = []).
Proof.
  intros Hq Hl. pose proof (compile_no_meta q Hq) as Hp. split; [|split].
  3: { intros ->. rewrite search_list_empty_query in Hl. congruence. }
  - intros m Hm.
    destruct (search_list_in keys q l m Hl Hm) as (p & Hp' & Hc).
    rewrite Hp in Hp'. injection Hp' as <-.
    destruct (collect_in _ _ _ _ Hc) as (Hk & Hs & Hpos & _).
    split; [|exact Hk].
    rewrite Hs in Hpos. apply score_pos_matches in Hpos.
    rewrite match_anywhere_literal in Hpos. exact Hpos.
  - intros Hne t u Hin Hct.
    assert (Hpos : Q_gt (score_of (literal_pattern q) q t) 0 = true).
    { rewrite score_of_literal. apply Q_gt_0_iff, spec_score_pos; assumption. }
    pose proof (collect_complete _ _ _ _ _ Hin Hpos) as Hc.
    rewrite (search_list_ranked keys q _ Hp) in Hl.
    assert (E : l = firstn 10 (sort_matches (collect (literal_pattern q) q keys)))
      by congruence.
    subst l.
    destruct (Nat.le_gt_cases (List.length (sort_matches (collect (literal_pattern q) q keys))) 10)
      as [Hle|Hgt].
    + left. rewrite firstn_all2 by exact Hle.
      exists (mk_match t u (score_of (literal_pattern q) q t) String_prototype_toLowerCase false).
      split; [|reflexivity].
      eapply Permutation_in; [apply Permutation_sym, sort_matches_perm|exact Hc].
    + right. rewrite length_firstn. lia.
Qed.

(** C3 (as stated, refuted): the query is a regular expression, so ["."]
    scores ["Goblin"] as a prefix match though the title contains no ["."]. *)
Lemma C3_dot_query_counterexample :
  search_list (Some [("Goblin", "/goblin")]%string) "." =
    Ok [mk_match "Goblin" "/goblin" (js_mul (js_div 1 6) 10) String_prototype_toLowerCase false] /\
  spec_score "." "Goblin" = 0%Q.
Proof. split; vm_compute; reflexivity. Qed.

(** C3 (amended): for a query without regular-expression special
    characters, the score of every title is the specification's formula
    (prefix: ratio times 10; substring: ratio; else 0; in JavaScript's
    double arithmetic), and every entry of
    the ranked list has that score and it is positive, so titles scored 0
    are excluded. *)
Theorem C3_score_formula (q : string) :
  no_meta q = true ->
  exists p, compile q = Some p /\
    (forall t, score_of p q t = spec_score q t) /\
    (forall keys l, search_list (Some keys) q = Ok l ->
       forall m, In m l -> score m = spec_score q (title m) /\ (0 < score m)%Q).
Proof.
  intros Hq. exists (literal_pattern q). split; [apply compile_no_meta, Hq|]. split.
  - apply score_of_literal.
  - intros keys l Hl m Hm.
    destruct (search_list_in keys q l m Hl Hm) as (p & Hp & Hc).
    rewrite (compile_no_meta q Hq) in Hp. injection Hp as <-.
    destruct (collect_in _ _ _ _ Hc) as (_ & Hs & Hpos & _).
    rewrite score_of_literal in Hs. split; [exact Hs|].
    apply Q_gt_0_iff, Hpos.
Qed.

(** C4: a pass yields at most 10 entries, the first 10 of the sorted
    candidates, however many titles match. *)
Theorem C4_at_most_ten (keys : index) (q : string) (p : list atom) (l : list match_rec) :
  compile q = Some p -> search_list (Some keys) q = Ok l ->
  (List.length l <= 10)%nat /\ l = firstn 10 (sort_matches (collect p q keys)).
Proof.
  intros Hp Hl. split.
  - rewrite (search_list_length keys q l p Hp Hl). apply Nat.le_min_l.
  - rewrite (search_list_ranked keys q p Hp) in Hl. congruence.
Qed.

(** C2 (code defect): the comparator's tie-break reads [title_lc], which
    holds the method [title.toLowerCase] rather than the lowercased title;
    both sides convert to the same source text, so ties compare as equal and
    the stable sort keeps index order.  With ["Gorgon"] listed before
    ["Goblin"], the query ["Go"] ranks them in that order although their
    scores are equal and ["gorgon"] > ["goblin"]. *)
Theorem C2_tie_break_on_method_reference :
  match search_list (Some [("Gorgon", "/gorgon"); ("Goblin", "/goblin")]%string) "Go" with
  | Ok [a; b] =>
      title a = "Gorgon"%string /\ title b = "Goblin"%string /\
      (score a ?= score b)%Q = Eq /\
      str_gt (toLowerCase (title a)) (toLowerCase (title b)) = true
  | _ => False
  end.
Proof. vm_compute. repeat split. Qed.

(** ** The key handler and the cursor *)

Lemma cursor_ok_cleared (keys : index) (s : state) :
  cursor_ok (Some keys) (clear_search_index s).
Proof.
  unfold cursor_ok. simpl. rewrite search_list_empty_query. auto.
Qed.

Lemma url_at_ok (l : list match_rec) (n : Z) (u : string) :
  url_at l n = Ok u -> exists m, nth_error l (Z.to_nat n) = Some m /\ u = url m.
Proof.
  unfold url_at. destruct (n <? 0); [discriminate|].
  destruct (nth_error l (Z.to_nat n)) as [m|]; [intros [= <-]; eauto|discriminate].
Qed.

Lemma step_cursor_ok (keys : index) (s s' : state) (e : event) :
  cursor_ok (Some keys) s -> keeps_query s e -> step (Some keys) s e = Some s' ->
  cursor_ok (Some keys) s'.
Proof.
  intros Hinv Hkeep Hstep.
  destruct e as [v code| |]; simpl in Hstep;
    try (injection Hstep as <-; apply cursor_ok_cleared).
  unfold search_index in Hstep. simpl index_query in Hstep.
  destruct (search_list (Some keys) v) as [l|err|] eqn:Hl.
  2: { injection Hstep as <-. unfold cursor_ok. simpl. rewrite Hl. exact I. }
  2: discriminate.
  destruct (0 <? List.length l)%nat eqn:Hlen.
  2: { injection Hstep as <-. unfold cursor_ok. simpl. rewrite Hl.
       apply Nat.ltb_ge in Hlen. destruct l; [auto|simpl in Hlen; lia]. }
  apply Nat.ltb_lt in Hlen.
  (* for the navigation keys, the invariant of [s] speaks of the same list *)
  assert (Hold : code = ArrowDown \/ code = ArrowUp \/ code = Enter ->
                 sel_idx s = -1 \/ (0 <= sel_idx s < Z.of_nat (List.length l))).
  { intros Hc. assert (v = index_query s) as Hv
      by (destruct Hc as [->|[->| ->]]; exact Hkeep).
    unfold cursor_ok in Hinv. rewrite <- Hv, Hl in Hinv.
    destruct Hinv as [H|[H|H]]; auto. subst l. simpl in Hlen; lia. }
  destruct code as [| | |k].
  - injection Hstep as <-. unfold cursor_ok. simpl. rewrite Hl.
    specialize (Hold (or_introl eq_refl)). right; right. lia.
  - injection Hstep as <-. unfold cursor_ok. simpl. rewrite Hl.
    specialize (Hold (or_intror (or_introl eq_refl))). right; right. lia.
  - destruct (if sel_idx (set_query v s) =? -1 then url_at l 0
              else url_at l (sel_idx (set_query v s))) as [u|err|];
      try discriminate.
    + injection Hstep as <-. apply cursor_ok_cleared.
    + injection Hstep as <-. unfold cursor_ok. simpl. rewrite Hl.
      specialize (Hold (or_intror (or_intror eq_refl))). destruct Hold; auto.
  - injection Hstep as <-. unfold cursor_ok. simpl. rewrite Hl. auto.
Qed.

Lemma run_cursor_ok (keys : index) (evs : list event) : forall s s',
  cursor_ok (Some keys) s -> nav_keys_keep_query (Some keys) s evs ->
  run (Some keys) s evs = Some s' -> cursor_ok (Some keys) s'.
Proof.
  induction evs as [|e evs IH]; intros s s' Hinv Hkeep Hrun.
  - injection Hrun as <-. exact Hinv.
  - simpl in Hkeep, Hrun. destruct Hkeep as [He Hrest].
    destruct (step (Some keys) s e) as [s1|] eqn:Hs; [|discriminate].
    exact (IH s1 s' (step_cursor_ok keys s s1 e Hinv He Hs) Hrest Hrun).
Qed.

(** C5 (as stated, refuted): after two matches are browsed with ArrowDown,
    a click clears the results but leaves the cursor at 0, which is not an
    index of the (now empty) displayed list. *)
Lemma C5_stale_cursor_counterexample :
  exists s, run (Some monsters) initial_state
              [Keyup "Go" (OtherKey "KeyO"); Keyup "Go" ArrowDown; Click] = Some s /\
            sel_idx s <> -1 /\
            ~ (0 <= sel_idx s < Z.of_nat (List.length (contents (index_results s)))).
Proof.
  eexists; split; [vm_compute; reflexivity|].
  cbn [sel_idx index_results contents List.length Z.of_nat]. split; [discriminate|lia].
Qed.

(** C5 (amended): when ArrowDown, ArrowUp and Enter are released without
    changing the query text, every state reached from the initial one has
    the cursor none, or a current query matching no title, or the cursor a
    valid index of the current ranked list. *)
Theorem C5_cursor_invariant (keys : index) (evs : list event) (s : state) :
  nav_keys_keep_query (Some keys) initial_state evs ->
  run (Some keys) initial_state evs = Some s ->
  cursor_ok (Some keys) s.
Proof.
  apply run_cursor_ok. unfold cursor_ok. simpl. rewrite search_list_empty_query. auto.
Qed.

(** C6 (code defect): the Enter branch reads [list[sel_idx]['url']] with
    no check of [sel_idx < list.length], the check [render_results] makes
    on the same index.  Three ArrowDowns over the three matches of ["Go"]
    leave the cursor at 2; Enter is then released on the query ["Gob"]
    (text pasted without a key release), whose ranked list is the one
    entry [m].  The claim asks for navigation to the entry at the cursor;
    rendering ignores the out-of-range cursor, but Enter reads
    [list[2]], which is undefined, and throws a TypeError: nothing is
    navigated and the query is not cleared. *)
Theorem C6_enter_unchecked_cursor :
  exists s m,
    run (Some monsters) initial_state
      [Keyup "Go" (OtherKey "KeyO"); Keyup "Go" ArrowDown; Keyup "Go" ArrowDown;
       Keyup "Go" ArrowDown] = Some s /\
    sel_idx s = 2 /\
    search_list (Some monsters) "Gob" = Ok [m] /\
    render_results (sel_idx s) [m] = mk_display [render_item m] true /\
    search_index (Some monsters) Enter (set_query "Gob" s) = Throws TypeError /\
    step (Some monsters) s (Keyup "Gob" Enter) = Some (set_query "Gob" s) /\
    location (set_query "Gob" s) = None /\ index_query (set_query "Gob" s) = "Gob"%string.
Proof. do 2 eexists. repeat match goal with |- _ /\ _ => split end; vm_compute; reflexivity. Qed.

(** Enter on a non-empty ranked list: a cursor of none navigates to the
    first entry and a cursor inside the list to the entry at the cursor,
    and then the query is cleared and the results hidden; any other cursor
    makes the handler throw. *)
Lemma enter_commit (keys : index) (s : state) (l : list match_rec) :
  search_list (Some keys) (index_query s) = Ok l -> l <> [] ->
  (sel_idx s = -1 -> exists m s',
     hd_error l = Some m /\ search_index (Some keys) Enter s = Ok s' /\
     location s' = Some (url m) /\ index_query s' = EmptyString /\
     index_results s' = hidden_empty) /\
  (0 <= sel_idx s < Z.of_nat (List.length l) -> exists m s',
     nth_error l (Z.to_nat (sel_idx s)) = Some m /\ search_index (Some keys) Enter s = Ok s' /\
     location s' = Some (url m) /\ index_query s' = EmptyString /\
     index_results s' = hidden_empty) /\
  (sel_idx s <> -1 -> ~ (0 <= sel_idx s < Z.of_nat (List.length l)) ->
     search_index (Some keys) Enter s = Throws TypeError).
Proof.
  intros Hl Hne. unfold search_index. rewrite Hl.
  destruct l as [|m0 l']; [contradiction|]. simpl (0 <? _)%nat. cbv iota.
  split; [|split].
  - intros Hsel. rewrite Hsel. simpl.
    exists m0, (clear_search_index (assign_location (url m0) s)). repeat split.
  - intros Hin.
    assert (Hneq : (sel_idx s =? -1) = false) by (apply Z.eqb_neq; lia).
    rewrite Hneq. unfold url_at.
    assert (Hpos : (sel_idx s <? 0) = false) by (apply Z.ltb_ge; lia).
    rewrite Hpos.
    destruct (nth_error (m0 :: l') (Z.to_nat (sel_idx s))) as [m|] eqn:Hn.
    + exists m, (clear_search_index (assign_location (url m) s)). repeat split.
    + apply nth_error_None in Hn. lia.
  - intros Hsel Hout.
    apply Z.eqb_neq in Hsel. rewrite Hsel. unfold url_at.
    destruct (sel_idx s <? 0) eqn:Hneg; [reflexivity|].
    apply Z.ltb_ge in Hneg.
    destruct (nth_error (m0 :: l') (Z.to_nat (sel_idx s))) eqn:Hn; [|reflexivity].
    exfalso. apply Hout. split; [exact Hneg|].
    assert (Hlt : (Z.to_nat (sel_idx s) < List.length (m0 :: l'))%nat)
      by (apply nth_error_Some; congruence).
    lia.
Qed.

(** C7 (as stated, refuted): clearing the results on a click does not
    reset the cursor. *)
Lemma C7_click_keeps_cursor_counterexample :
  exists s s', run (Some monsters) initial_state
                 [Keyup "Go" (OtherKey "KeyO"); Keyup "Go" ArrowDown] = Some s /\
               step (Some monsters) s Click = Some s' /\
               index_results s' = hidden_empty /\ sel_idx s' = 0.
Proof. do 2 eexists. repeat match goal with |- _ /\ _ => split end; vm_compute; reflexivity. Qed.

(** C7 (amended): the cursor is set to none by every key release other
    than ArrowDown, ArrowUp and Enter whose query matches a title; a click,
    the ["/"] shortcut, an Enter commit and a key release whose query
    matches nothing leave it unchanged. *)
Theorem C7_cursor_reset (site_index : option index) :
  (forall s s' v k l, search_list site_index v = Ok l -> l <> [] ->
     step site_index s (Keyup v (OtherKey k)) = Some s' -> sel_idx s' = -1) /\
  (forall s s', step site_index s Click = Some s' -> sel_idx s' = sel_idx s) /\
  (forall s s', step site_index s SlashKey = Some s' -> sel_idx s' = sel_idx s) /\
  (forall s s', search_index site_index Enter s = Ok s' -> sel_idx s' = sel_idx s) /\
  (forall s s' v k, search_list site_index v = Ok [] ->
     step site_index s (Keyup v k) = Some s' -> sel_idx s' = sel_idx s).
Proof.
  split; [|split; [|split; [|split]]].
  - intros s s' v k l Hl Hne Hs. simpl in Hs. unfold search_index in Hs.
    simpl index_query in Hs. rewrite Hl in Hs.
    destruct l; [contradiction|]. simpl in Hs. injection Hs as <-. reflexivity.
  - intros s s' [= <-]. reflexivity.
  - intros s s' [= <-]. reflexivity.
  - intros s s'. unfold search_index.
    destruct (search_list site_index (index_query s)) as [l| |]; try discriminate.
    destruct (0 <? List.length l)%nat; [|intros [= <-]; reflexivity].
    destruct (if sel_idx s =? -1 then url_at l 0 else url_at l (sel_idx s));
      try discriminate.
    intros [= <-]. reflexivity.
  - intros s s' v k Hl Hs. simpl in Hs. unfold search_index in Hs.
    simpl index_query in Hs. rewrite Hl in Hs. simpl in Hs.
    injection Hs as <-. reflexivity.
Qed.

(** ** No results, determinism, rendering *)

Lemma search_list_present_no_throw (keys : index) (q : string) (e : js_error) :
  search_list (Some keys) q <> Throws e.
Proof.
  unfold search_list. destruct (compile q); [|discriminate].
  destruct (0 <? _)%nat; discriminate.
Qed.

(** C8 (as stated, refuted): with the [site_index] global missing,
    [Object.keys(site_index)] throws, even for the empty query. *)
Lemma C8_missing_index_counterexample :
  search_list None EmptyString = Throws ReferenceError.
Proof. reflexivity. Qed.

(** C8 (amended): with the index present (possibly empty), the empty query
    yields the empty list, and any key release whose query matches no title
    empties and hides the results display; with the index missing, every
    pass throws. *)
Theorem C8_no_results_hidden (keys : index) :
  search_list (Some keys) EmptyString = Ok [] /\
  (forall s s' v k, search_list (Some keys) v = Ok [] ->
     step (Some keys) s (Keyup v k) = Some s' ->
     index_results s' = hidden_empty /\ index_query s' = v) /\
  (forall q p, compile q = Some p -> search_list None q = Throws ReferenceError).
Proof.
  split; [apply search_list_empty_query|split].
  - intros s s' v k Hl Hs. simpl in Hs. unfold search_index in Hs.
    simpl index_query in Hs. rewrite Hl in Hs. simpl in Hs.
    injection Hs as <-. split; reflexivity.
  - intros q p Hp. unfold search_list. rewrite Hp. reflexivity.
Qed.

(** C9: the rendered ranked list of a pass depends only on the query and
    the index: from any state the same query yields the same results
    display, and repeating the pass changes nothing. *)
Theorem C9_pass_deterministic (keys : index) (q k : string) (s s1 : state) :
  step (Some keys) s (Keyup q (OtherKey k)) = Some s1 ->
  step (Some keys) s1 (Keyup q (OtherKey k)) = Some s1 /\
  (forall s', option_map index_results (step (Some keys) s' (Keyup q (OtherKey k))) =
              Some (index_results s1)).
Proof.
  intros Hs. simpl in Hs |- *. unfold search_index in Hs |- *. simpl index_query in Hs |- *.
  destruct (search_list (Some keys) q) as [l|e|] eqn:Hl.
  - destruct (0 <? List.length l)%nat; injection Hs as <-; split; try reflexivity;
      intros s'; simpl; rewrite Hl; reflexivity.
  - exfalso. exact (search_list_present_no_throw keys q e Hl).
  - discriminate.
Qed.

Lemma unmarked_flags (l : list match_rec) :
  Forall (fun m => selected m = false) l -> map selected l = repeat false (List.length l).
Proof. induction 1 as [|m l Hm _ IH]; simpl; [reflexivity|]. rewrite Hm, IH. reflexivity. Qed.

Lemma seq_eqb_false (len j k : nat) :
  (k < j)%nat -> map (fun i => Nat.eqb i k) (seq j len) = repeat false len.
Proof.
  revert j; induction len as [|len IH]; intros j Hj; [reflexivity|].
  simpl. rewrite IH by lia. replace (Nat.eqb j k) with false; [reflexivity|].
  symmetry. apply Nat.eqb_neq. lia.
Qed.

Lemma mark_selected_flags (l : list match_rec) : forall n k,
  Forall (fun m => selected m = false) l ->
  map selected (mark_selected n l) = map (fun i => Nat.eqb i (k + n)) (seq k (List.length l)).
Proof.
  induction l as [|m l IH]; intros n k Hun; [destruct n; reflexivity|].
  inversion Hun as [|? ? Hm Hl]; subst.
  destruct n as [|n]; simpl.
  - rewrite Nat.add_0_r, Nat.eqb_refl, seq_eqb_false by lia.
    rewrite unmarked_flags by exact Hl. reflexivity.
  - rewrite Hm, (IH n (S k) Hl).
    replace (k + S n)%nat with (S k + n)%nat by lia.
    replace (Nat.eqb k (S k + n)) with false by (symmetry; apply Nat.eqb_neq; lia).
    reflexivity.
Qed.

Lemma mark_selected_fields (l : list match_rec) (n : nat) :
  map url (mark_selected n l) = map url l /\ map title (mark_selected n l) = map title l.
Proof.
  revert n; induction l as [|m l IH]; intros [|n]; simpl; auto.
  destruct (IH n) as [-> ->]. auto.
Qed.

Lemma render_item_fields (l : list match_rec) :
  map li_selected (map render_item l) = map selected l /\
  map a_href (map render_item l) = map url l /\
  map a_text (map render_item l) = map title l.
Proof. induction l as [|m l IH]; simpl; [auto|]. destruct IH as (-> & -> & ->). auto. Qed.

(** C10: rendering marks exactly the entry at the cursor when
    [0 <= cursor < length], and no entry for any other cursor; it keeps
    every entry's link and text, in order. *)
Theorem C10_render_marks_cursor (sel : Z) (l : list match_rec) :
  Forall (fun m => selected m = false) l ->
  map li_selected (contents (render_results sel l)) =
    map (fun i => (0 <=? sel) && (sel <? Z.of_nat (List.length l)) && (Z.of_nat i =? sel))
        (seq 0 (List.length l)) /\
  map a_href (contents (render_results sel l)) = map url l /\
  map a_text (contents (render_results sel l)) = map title l.
Proof.
  intros Hun. unfold render_results. simpl contents.
  destruct ((0 <=? sel) && (sel <? Z.of_nat (List.length l))) eqn:G.
  - destruct (render_item_fields (mark_selected (Z.to_nat sel) l)) as (-> & -> & ->).
    destruct (mark_selected_fields l (Z.to_nat sel)) as [-> ->].
    split; [|auto].
    rewrite (mark_selected_flags l (Z.to_nat sel) 0 Hun).
    apply andb_prop in G as [G1 G2]. apply Z.leb_le in G1.
    apply map_ext. intros i. simpl.
    destruct (Nat.eqb_spec i (Z.to_nat sel)); symmetry; [apply Z.eqb_eq|apply Z.eqb_neq]; lia.
  - destruct (render_item_fields l) as (-> & -> & ->). split; [|auto].
    rewrite unmarked_flags by exact Hun.
    transitivity (map (fun _ : nat => false) (seq 0 (List.length l)));
      [|apply map_ext; intros; reflexivity].
    clear. generalize 0%nat. induction (List.length l) as [|n IH]; intros j; simpl;
      [reflexivity|]. f_equal. apply IH.
Qed.

(** ** Instances of the theorems on the sample index *)

Lemma C1_filter_sound_complete_witness :
  no_meta "Go" = true /\ search_list (Some monsters) "Go" = Ok ranked_go /\
  ((forall m, In m ranked_go -> contains_ci "Go" (title m) = true /\ In (title m, url m) monsters) /\
   ("Go"%string <> EmptyString -> forall t u, In (t, u) monsters -> contains_ci "Go" t = true ->
      (exists m, In m ranked_go /\ title m = t) \/ List.length ranked_go = 10%nat) /\
   ("Go"%string = EmptyString -> ranked_go = [])).
Proof.
  assert (H1 : no_meta "Go" = true) by (vm_compute; reflexivity).
  assert (H2 : search_list (Some monsters) "Go" = Ok ranked_go) by (vm_compute; reflexivity).
  split; [exact H1|split; [exact H2|]].
  exact (C1_filter_sound_complete monsters "Go" ranked_go H1 H2).
Defined.

Lemma C3_score_formula_witness :
  no_meta "Go" = true /\
  exists p, compile "Go" = Some p /\
    (forall t, score_of p "Go" t = spec_score "Go" t) /\
    (forall keys l, search_list (Some keys) "Go" = Ok l ->
       forall m, In m l -> score m = spec_score "Go" (title m) /\ (0 < score m)%Q).
Proof.
  assert (H1 : no_meta "Go" = true) by (vm_compute; reflexivity).
  split; [exact H1|]. exact (C3_score_formula "Go" H1).
Defined.

Lemma C4_at_most_ten_witness :
  compile "Go" = Some (literal_pattern "Go") /\
  search_list (Some monsters) "Go" = Ok ranked_go /\
  ((List.length ranked_go <= 10)%nat /\
   ranked_go = firstn 10 (sort_matches (collect (literal_pattern "Go") "Go" monsters))).
Proof.
  assert (H1 : compile "Go" = Some (literal_pattern "Go")) by (vm_compute; reflexivity).
  assert (H2 : search_list (Some monsters) "Go" = Ok ranked_go) by (vm_compute; reflexivity).
  split; [exact H1|split; [exact H2|]].
  exact (C4_at_most_ten monsters "Go" (literal_pattern "Go") ranked_go H1 H2).
Defined.

Lemma C5_cursor_invariant_witness :
  exists s,
    nav_keys_keep_query (Some monsters) initial_state
      [Keyup "Go" (OtherKey "KeyO"); Keyup "Go" ArrowDown; Keyup "Go" ArrowDown; Click] /\
    run (Some monsters) initial_state
      [Keyup "Go" (OtherKey "KeyO"); Keyup "Go" ArrowDown; Keyup "Go" ArrowDown; Click]
      = Some s /\
    cursor_ok (Some monsters) s.
Proof.
  assert (H1 : nav_keys_keep_query (Some monsters) initial_state
      [Keyup "Go" (OtherKey "KeyO"); Keyup "Go" ArrowDown; Keyup "Go" ArrowDown; Click])
    by (vm_compute; repeat split).
  eexists. split; [exact H1|].
  assert (H2 : run (Some monsters) initial_state
      [Keyup "Go" (OtherKey "KeyO"); Keyup "Go" ArrowDown; Keyup "Go" ArrowDown; Click]
      = Some (mk_state EmptyString hidden_empty 1 None)) by (vm_compute; reflexivity).
  split; [exact H2|].
  exact (C5_cursor_invariant monsters _ _ H1 H2).
Defined.

Lemma C7_cursor_reset_witness :
  exists s', search_list (Some monsters) "Go" = Ok ranked_go /\ ranked_go <> [] /\
    step (Some monsters) initial_state (Keyup "Go" (OtherKey "KeyO")) = Some s' /\
    sel_idx s' = -1.
Proof.
  assert (H1 : search_list (Some monsters) "Go" = Ok ranked_go) by (vm_compute; reflexivity).
  assert (H2 : ranked_go <> []) by (vm_compute; discriminate).
  eexists. split; [exact H1|split; [exact H2|]].
  assert (H3 : step (Some monsters) initial_state (Keyup "Go" (OtherKey "KeyO"))
               = Some (set_results (render_results (-1) ranked_go)
                                   (set_sel (-1) (set_query "Go" initial_state))))
    by (vm_compute; reflexivity).
  split; [exact H3|].
  exact (proj1 (C7_cursor_reset (Some monsters)) _ _ _ _ _ H1 H2 H3).
Defined.

Lemma C8_no_results_hidden_witness :
  exists s', search_list (Some monsters) "xyz" = Ok [] /\
    step (Some monsters) initial_state (Keyup "xyz" (OtherKey "KeyZ")) = Some s' /\
    (index_results s' = hidden_empty /\ index_query s' = "xyz"%string).
Proof.
  assert (H1 : search_list (Some monsters) "xyz" = Ok []) by (vm_compute; reflexivity).
  assert (H2 : step (Some monsters) initial_state (Keyup "xyz" (OtherKey "KeyZ"))
               = Some (set_results hidden_empty (set_query "xyz" initial_state)))
    by (vm_compute; reflexivity).
  eexists. split; [exact H1|split; [exact H2|]].
  exact (proj1 (proj2 (C8_no_results_hidden monsters)) _ _ _ _ H1 H2).
Defined.

Lemma C9_pass_deterministic_witness :
  exists s1, step (Some monsters) initial_state (Keyup "Go" (OtherKey "KeyO")) = Some s1 /\
    (step (Some monsters) s1 (Keyup "Go" (OtherKey "KeyO")) = Some s1 /\
     (forall s', option_map index_results (step (Some monsters) s' (Keyup "Go" (OtherKey "KeyO"))) =
                 Some (index_results s1))).
Proof.
  assert (H1 : step (Some monsters) initial_state (Keyup "Go" (OtherKey "KeyO"))
               = Some (set_results (render_results (-1) ranked_go)
                                   (set_sel (-1) (set_query "Go" initial_state))))
    by (vm_compute; reflexivity).
  eexists. split; [exact H1|].
  exact (C9_pass_deterministic monsters "Go" "KeyO" _ _ H1).
Defined.

Lemma C10_render_marks_cursor_witness :
  Forall (fun m => selected m = false) ranked_go /\
  (map li_selected (contents (render_results 1 ranked_go)) =
     map (fun i => (0 <=? 1) && (1 <? Z.of_nat (List.length ranked_go)) && (Z.of_nat i =? 1))
         (seq 0 (List.length ranked_go)) /\
   map a_href (contents (render_results 1 ranked_go)) = map url ranked_go /\
   map a_text (contents (render_results 1 ranked_go)) = map title ranked_go).
Proof.
  assert (H1 : Forall (fun m => selected m = false) ranked_go)
    by (vm_compute; repeat constructor).
  split; [exact H1|]. exact (C10_render_marks_cursor 1 ranked_go H1).
Defined.

(** * Properties of the cookie store, dark mode, sidebar and search order *)

Ltac ascii_cases c :=
  destruct c as [[|] [|] [|] [|] [|] [|] [|] [|]].

Lemma decode_encode_char (c : ascii) (l : list ascii) :
  decode_chars (encode_char c ++ l) = cons_out c (decode_chars l).
Proof. ascii_cases c; reflexivity. Qed.

Lemma decode_encode (l : list ascii) : decodeURIComponent (encodeURIComponent l) = Value l.
Proof.
  unfold decodeURIComponent, encodeURIComponent.
  induction l as [|c l IH]; [reflexivity|].
  cbn [flat_map]. rewrite decode_encode_char, IH. reflexivity.
Qed.


Lemma encode_char_safe (c : ascii) : forallb cookie_char (encode_char c) = true.
Proof. ascii_cases c; reflexivity. Qed.

Lemma encode_safe (l : list ascii) : forallb cookie_char (encodeURIComponent l) = true.
Proof.
  unfold encodeURIComponent. induction l as [|c l IH]; [reflexivity|].
  cbn [flat_map]. rewrite forallb_app, encode_char_safe, IH. reflexivity.
Qed.

Local Open Scope N_scope.

Lemma plain_char_spec (c : ascii) : plain_char c = true ->
  (N_of_ascii c =? 34) = false /\ (N_of_ascii c =? 92) = false /\ (N_of_ascii c <? 32) = false.
Proof.
  unfold plain_char. destruct (N_of_ascii c =? 34), (N_of_ascii c =? 92), (N_of_ascii c <? 32);
    simpl; intuition discriminate.
Qed.

Lemma json_escape_plain (c : ascii) : plain_char c = true -> json_escape c = [c].
Proof. ascii_cases c; vm_compute; intro H; first [reflexivity | discriminate H]. Qed.

Lemma escape_plain_text (l : list ascii) :
  forallb plain_char l = true -> flat_map json_escape l = l.
Proof.
  induction l as [|c l IH]; [reflexivity|]. cbn. intros H.
  apply andb_prop in H as [H1 H2]. rewrite json_escape_plain, IH by assumption. reflexivity.
Qed.

Lemma parse_string_plain (l r : list ascii) :
  forallb plain_char l = true -> parse_string_body (l ++ dquote :: r) = Value (l, r).
Proof.
  induction l as [|c l IH]; [reflexivity|]. cbn [forallb]. intros H.
  apply andb_prop in H as [H1 H2]. destruct (plain_char_spec c H1) as (E1 & E2 & E3).
  cbn [app parse_string_body]. rewrite E1, E2, E3, IH by assumption. reflexivity.
Qed.

Lemma plain_not_terminator (c : ascii) : plain_char c = true -> is_line_terminator c = false.
Proof. ascii_cases c; vm_compute; intro H; first [reflexivity | discriminate H]. Qed.

(** Decimal digits. *)

Lemma digit_char_code (d : N) : d < 10 -> N_of_ascii (digit_char d) = 48 + d.
Proof. intros H. unfold digit_char. apply N_ascii_embedding. lia. Qed.

Lemma is_digit_char (d : N) : d < 10 -> is_digit (digit_char d) = true.
Proof.
  intros H. unfold is_digit. rewrite digit_char_code by lia.
  apply andb_true_intro; split; apply N.leb_le; lia.
Qed.

Lemma decimal_aux_S (f : nat) (n : N) (acc : list ascii) :
  decimal_aux (S f) n acc =
  if n <? 10 then digit_char (n mod 10) :: acc
  else decimal_aux f (n / 10) (digit_char (n mod 10) :: acc).
Proof. reflexivity. Qed.

Lemma decimal_aux_spec (f : nat) : forall n acc, n < 10 ^ N.of_nat (S f) ->
  exists ds, decimal_aux (S f) n acc = ds ++ acc /\ ds <> [] /\
    forallb is_digit ds = true /\ digits_value ds = n /\
    (n = 0 -> ds = ["0"%char]) /\ (0 < n -> hd_error ds <> Some "0"%char).
Proof.
  induction f as [|f IH]; intros n acc Hn.
  - assert (Hlt : n < 10) by (simpl in Hn; lia).
    exists [digit_char n]. rewrite decimal_aux_S.
    assert (Hb : (n <? 10) = true) by (apply N.ltb_lt; lia).
    rewrite Hb, N.mod_small by lia. repeat split.
    + discriminate.
    + simpl. rewrite is_digit_char by lia. reflexivity.
    + unfold digits_value. simpl. rewrite digit_char_code by lia. lia.
    + intros ->. reflexivity.
    + intros Hp. simpl. intros E. injection E as E.
      apply (f_equal N_of_ascii) in E. rewrite digit_char_code in E by lia.
      replace (N_of_ascii "0"%char) with 48 in E by reflexivity. lia.
  - rewrite decimal_aux_S. destruct (n <? 10) eqn:Hb.
    + apply N.ltb_lt in Hb. exists [digit_char (n mod 10)].
      rewrite N.mod_small by lia. repeat split.
      * discriminate.
      * simpl. rewrite is_digit_char by lia. reflexivity.
      * unfold digits_value. simpl. rewrite digit_char_code by lia. lia.
      * intros ->. reflexivity.
      * intros Hp. simpl. intros E. injection E as E.
        apply (f_equal N_of_ascii) in E. rewrite digit_char_code in E by lia.
        replace (N_of_ascii "0"%char) with 48 in E by reflexivity. lia.
    + apply N.ltb_ge in Hb.
      assert (Hq : n / 10 < 10 ^ N.of_nat (S f)).
      { apply N.Div0.div_lt_upper_bound.
        rewrite Nat2N.inj_succ, N.pow_succ_r' in Hn. lia. }
      destruct (IH (n / 10) (digit_char (n mod 10) :: acc) Hq)
        as (ds & E & Hne & Hd & Hv & _ & Hh).
      exists (ds ++ [digit_char (n mod 10)]). rewrite E, <- app_assoc. repeat split.
      * destruct ds; simpl; discriminate.
      * rewrite forallb_app, Hd. simpl. rewrite is_digit_char by (apply N.mod_lt; lia).
        reflexivity.
      * unfold digits_value in *. rewrite fold_left_app, Hv. cbn [fold_left].
        rewrite digit_char_code by (apply N.mod_lt; lia).
        rewrite N.add_simpl_l. symmetry. apply N.div_mod. lia.
      * intros ->. lia.
      * intros _. destruct ds as [|x ds]; [contradiction|]. simpl. apply Hh.
        apply N.div_str_pos. lia.
Qed.

Lemma decimal_spec (n : N) :
  exists ds, decimal n = ds /\ ds <> [] /\
    forallb is_digit ds = true /\ digits_value ds = n /\
    (n = 0 -> ds = ["0"%char]) /\ (0 < n -> hd_error ds <> Some "0"%char).
Proof.
  unfold decimal.
  destruct (decimal_aux_spec (N.to_nat (N.size n)) n []) as (ds & E & H).
  - rewrite Nat2N.inj_succ, N2Nat.id.
    apply N.lt_le_trans with (2 ^ N.size n); [apply N.size_gt|].
    apply N.le_trans with (10 ^ N.size n).
    + apply N.pow_le_mono_l. lia.
    + apply N.pow_le_mono_r; lia.
  - exists ds. rewrite E, app_nil_r. auto.
Qed.


Lemma digit_run_app (ds r : list ascii) :
  forallb is_digit ds = true -> stops_number r -> digit_run (ds ++ r) = (ds, r).
Proof.
  intros Hd Hr. induction ds as [|c ds IH].
  - destruct r as [|c r]; [reflexivity|]. destruct Hr as [H1 _]. simpl. rewrite H1. reflexivity.
  - cbn [forallb] in Hd. apply andb_prop in Hd as [H1 H2].
    cbn [app digit_run]. rewrite H1, IH by assumption. reflexivity.
Qed.

Lemma parse_number_decimal (n : N) (r : list ascii) :
  n < exact_limit -> stops_number r -> parse_number (decimal n ++ r) = Value (n, r).
Proof.
  intros Hn Hr. destruct (decimal_spec n) as (ds & E & Hne & Hd & Hv & Hz & Hh). rewrite E.
  unfold parse_number. rewrite digit_run_app by assumption.
  assert (Hlz : match ds with c :: _ :: _ => Ascii.eqb c "0" | _ => false end = false).
  { destruct ds as [|c [|c2 ds]]; try reflexivity.
    destruct (N.eq_dec n 0) as [->|Hp].
    - specialize (Hz eq_refl). discriminate Hz.
    - apply Ascii.eqb_neq. intros ->. apply (Hh ltac:(lia)). reflexivity. }
  rewrite Hlz.
  assert (Hf : match r with c :: _ => existsb (Ascii.eqb c) (list_ascii_of_string ".eE") | [] => false end = false).
  { destruct r as [|c r]; [reflexivity|]. apply Hr. }
  rewrite Hf, Hv. apply N.ltb_lt in Hn. rewrite Hn. reflexivity.
Qed.


Lemma plain_text_chars (s : string) :
  plain_text s = true -> forallb text_char (list_ascii_of_string s) = true.
Proof.
  unfold plain_text. induction (list_ascii_of_string s) as [|c l IH]; [reflexivity|].
  cbn [forallb]. intros H. apply andb_prop in H as [H1 H2].
  unfold text_char at 1. rewrite plain_not_terminator, IH by assumption. reflexivity.
Qed.

Lemma digits_text (ds : list ascii) : forallb is_digit ds = true -> forallb text_char ds = true.
Proof.
  induction ds as [|c ds IH]; [reflexivity|]. cbn [forallb]. intros H.
  apply andb_prop in H as [H1 H2]. rewrite IH by assumption.
  ascii_cases c; first [discriminate H1 | reflexivity].
Qed.

Lemma json_quote_plain (s : string) :
  plain_text s = true ->
  json_quote (list_ascii_of_string s) = dquote :: list_ascii_of_string s ++ [dquote].
Proof. intros H. unfold json_quote. rewrite escape_plain_text by exact H. reflexivity. Qed.

Lemma scalar_round_trip (x : jsval) :
  scalar_ok x = true ->
  exists t, json_stringify x = Value t /\ forallb text_char t = true /\
    (exists c t', t = c :: t' /\ Ascii.eqb c "{" = false) /\
    forall r, stops_number r -> parse_scalar (t ++ r) = Value (x, r).
Proof.
  destruct x as [s|n|ps]; cbn [scalar_ok]; intros H; [| |discriminate H].
  - exists (dquote :: list_ascii_of_string s ++ [dquote]).
    split; [cbn [json_stringify]; rewrite json_quote_plain by exact H; reflexivity|].
    split; [|split].
    + cbn [forallb]. rewrite forallb_app, plain_text_chars by exact H. reflexivity.
    + eexists _, _. split; [reflexivity|]. reflexivity.
    + intros r _. cbn [app parse_scalar].
      replace (N_of_ascii dquote =? 34) with true by reflexivity.
      rewrite <- app_assoc. cbn [app]. rewrite parse_string_plain by exact H.
      cbn [obind]. rewrite string_of_list_ascii_of_string. reflexivity.
  - exists (decimal n). cbn [json_stringify]. rewrite H. split; [reflexivity|].
    apply N.ltb_lt in H.
    destruct (decimal_spec n) as (ds & E & Hne & Hd & Hv & Hz & Hh).
    split; [|split].
    + rewrite E. apply digits_text, Hd.
    + rewrite E. destruct ds as [|c ds]; [contradiction|]. exists c, ds. split; [reflexivity|].
      cbn [forallb] in Hd. apply andb_prop in Hd as [Hc _].
      ascii_cases c; first [discriminate Hc | reflexivity].
    + intros r Hr. pose proof (parse_number_decimal n r H Hr) as Hp.
      rewrite E in Hp |- *. destruct ds as [|c ds]; [contradiction|].
      cbn [forallb] in Hd. apply andb_prop in Hd as [Hc _].
      cbn [app parse_scalar].
      assert (Hq : (N_of_ascii c =? 34) = false).
      { ascii_cases c; first [discriminate Hc | reflexivity]. }
      rewrite Hq, Hc. cbn [app] in Hp. rewrite Hp. reflexivity.
Qed.

Lemma prop_set_fresh {A : Type} (k : string) (x : A) (acc : list (string * A)) :
  prop_get k acc = None -> prop_set k x acc = acc ++ [(k, x)].
Proof.
  induction acc as [|[k' v'] acc IH]; [reflexivity|]. cbn.
  destruct (String.eqb k k'); [discriminate|]. intros H. rewrite IH by exact H. reflexivity.
Qed.

Lemma prop_get_snoc {A : Type} (k k' : string) (x : A) (acc : list (string * A)) :
  prop_get k acc = None -> String.eqb k k' = false -> prop_get k (acc ++ [(k', x)]) = None.
Proof.
  induction acc as [|[k2 v2] acc IH]; intros H1 H2.
  - cbn. rewrite H2. reflexivity.
  - cbn in *. destruct (String.eqb k k2); [discriminate|]. apply IH; assumption.
Qed.

Lemma json_members_cons (f : jsval -> outcome (list ascii)) k x ps :
  json_members f ((k, x) :: ps) =
  obind (f x) (fun t => obind (json_members f ps) (fun ms =>
    Value ((json_quote (list_ascii_of_string k) ++ ":"%char :: t) :: ms))).
Proof. reflexivity. Qed.

Lemma parse_member_step (f : nat) (k : string) (x : jsval) (t : list ascii) (c3 : ascii)
    (r3 : list ascii) (acc : list (string * jsval)) :
  plain_text k = true ->
  (forall r, stops_number r -> parse_scalar (t ++ r) = Value (x, r)) ->
  prop_get k acc = None ->
  c3 = ","%char \/ c3 = "}"%char ->
  parse_members (S f) ((json_quote (list_ascii_of_string k) ++ ":"%char :: t) ++ c3 :: r3) acc =
  if Ascii.eqb c3 "," then parse_members f r3 (acc ++ [(k, x)])
  else Value (acc ++ [(k, x)], r3).
Proof.
  intros Hk Hx Hacc Hc.
  rewrite json_quote_plain by exact Hk. rewrite <- !app_comm_cons, <- !app_assoc.
  cbn [app].
  assert (Hs : stops_number (c3 :: r3)) by (destruct Hc as [-> | ->]; split; reflexivity).
  cbn [parse_members].
  replace (N_of_ascii dquote =? 34) with true by reflexivity.
  rewrite parse_string_plain by exact Hk. cbn [obind].
  replace (Ascii.eqb ":" ":") with true by reflexivity.
  rewrite Hx by exact Hs. cbn [obind]. rewrite string_of_list_ascii_of_string.
  rewrite prop_set_fresh by exact Hacc.
  destruct Hc as [-> | ->]; reflexivity.
Qed.


Lemma members_round_trip (ps : list (string * jsval)) :
  ps <> [] ->
  forallb member_ok ps = true ->
  keys_distinct ps = true ->
  exists ms, json_members json_stringify ps = Value ms /\
    (length ps <= length (join [","%char] ms))%nat /\
    forallb text_char (join [","%char] ms) = true /\
    hd_error (join [","%char] ms) = Some dquote /\
    forall acc fuel r,
      (forall k v, prop_get k ps = Some v -> prop_get k acc = None) ->
      (length ps <= fuel)%nat ->
      parse_members fuel (join [","%char] ms ++ "}"%char :: r) acc = Value (acc ++ ps, r).
Proof.
  induction ps as [|[k x] ps IH]; intros Hne Hok Hd; [contradiction|].
  cbn [forallb member_ok fst snd] in Hok.
  apply andb_prop in Hok as [Hkx Hok]. apply andb_prop in Hkx as [Hk Hx].
  destruct (scalar_round_trip x Hx) as (t & Ht & Htxt & _ & Hp).
  cbn [keys_distinct] in Hd.
  destruct (prop_get k ps) eqn:Hkps; [discriminate|].
  set (m := json_quote (list_ascii_of_string k) ++ ":"%char :: t).
  assert (Hmtxt : forallb text_char m = true /\ (1 <= length m)%nat).
  { subst m. rewrite json_quote_plain by exact Hk. split; [|cbn; lia].
    rewrite <- app_comm_cons. cbn [forallb].
    rewrite !forallb_app, plain_text_chars by exact Hk. simpl. rewrite Htxt. reflexivity. }
  assert (Hstep : forall acc fuel r c3, (forall k' v', prop_get k' ((k, x) :: ps) = Some v' ->
                     prop_get k' acc = None) -> (1 <= fuel)%nat -> c3 = ","%char \/ c3 = "}"%char ->
            exists f, fuel = S f /\ parse_members fuel (m ++ c3 :: r) acc =
              if Ascii.eqb c3 "," then parse_members f r (acc ++ [(k, x)])
              else Value (acc ++ [(k, x)], r)).
  { intros acc fuel r c3 Hacc Hf Hc. destruct fuel as [|f]; [lia|]. exists f. split; [reflexivity|].
    subst m. apply parse_member_step; auto.
    apply (Hacc k x). cbn. rewrite String.eqb_refl. reflexivity. }
  destruct ps as [|kv2 ps'].
  - exists [m]. rewrite json_members_cons, Ht. cbn [obind].
    split; [reflexivity|]. cbn [join]. split; [cbn; lia|]. split; [apply Hmtxt|].
    split; [subst m; unfold json_quote; reflexivity|].
    intros acc fuel r Hacc Hf.
    destruct (Hstep acc fuel r "}"%char Hacc ltac:(cbn in Hf; lia) ltac:(auto)) as (f & _ & E).
    rewrite E. reflexivity.
  - destruct (IH ltac:(discriminate) Hok Hd) as (ms & Hms & Hlen & Htx & _ & Hpm).
    exists (m :: ms). rewrite json_members_cons, Ht. cbn [obind]. rewrite Hms. cbn [obind].
    split; [reflexivity|].
    destruct ms as [|m2 ms']; [cbn in Hlen; lia|].
    change (join [","%char] (m :: m2 :: ms')) with (m ++ [","%char] ++ join [","%char] (m2 :: ms')).
    split; [rewrite !length_app; cbn [length] in *; lia|].
    split; [rewrite !forallb_app, Htx; rewrite (proj1 Hmtxt); reflexivity|].
    split; [subst m; unfold json_quote; reflexivity|].
    intros acc fuel r Hacc Hf.
    rewrite <- app_assoc. cbn [app].
    destruct (Hstep acc fuel (join [","%char] (m2 :: ms') ++ "}"%char :: r) ","%char Hacc
                ltac:(cbn in Hf; lia) ltac:(auto)) as (f & -> & E).
    rewrite E. cbn [Ascii.eqb]. rewrite Hpm.
    + rewrite <- app_assoc. reflexivity.
    + intros k' v' Hk'. apply prop_get_snoc.
      * apply (Hacc k' v'). cbn. destruct (String.eqb k' k) eqn:E'.
        -- apply String.eqb_eq in E'. subst k'. rewrite Hkps in Hk'. discriminate.
        -- exact Hk'.
      * destruct (String.eqb k' k) eqn:E'; [|reflexivity].
        apply String.eqb_eq in E'. subst k'. rewrite Hkps in Hk'. discriminate.
    + cbn in Hf |- *. lia.
Qed.


Lemma json_round_trip (v : jsval) :
  json_ok v = true ->
  exists t, json_stringify v = Value t /\ text_ok t = true /\ json_parse t = Value v.
Proof.
  destruct v as [s|n|ps]; cbn [json_ok]; intros H.
  1-2: destruct (scalar_round_trip _ H) as (t & Ht & Htxt & (c & t' & -> & Hc) & Hp);
       exists (c :: t'); split; [exact Ht|]; split; [cbn; exact Htxt|];
       unfold json_parse; rewrite Hc;
       specialize (Hp [] I); rewrite app_nil_r in Hp; rewrite Hp; reflexivity.
  apply andb_prop in H as [Hok Hd].
  destruct ps as [|kv ps'].
  - exists (list_ascii_of_string "{}"). split; [reflexivity|]. split; reflexivity.
  - destruct (members_round_trip (kv :: ps') ltac:(discriminate) Hok Hd)
      as (ms & Hms & Hlen & Htx & Hhd & Hp).
    exists ("{"%char :: join [","%char] ms ++ ["}"%char]).
    split; [cbn [json_stringify]; rewrite Hms; reflexivity|].
    split; [unfold text_ok; change (forallb text_char ("{"%char :: join [","%char] ms ++ ["}"%char]) = true);
            cbn [forallb]; rewrite forallb_app, Htx; reflexivity|].
    unfold json_parse. replace (Ascii.eqb "{" "{") with true by reflexivity.
    specialize (Hp [] (length (join [","%char] ms ++ ["}"%char])) [] ltac:(intros; reflexivity)
                  ltac:(rewrite length_app; lia)).
    destruct (join [","%char] ms) as [|c2 rest] eqn:J; [discriminate Hhd|].
    injection Hhd as ->. cbn [app]. replace (Ascii.eqb dquote "}") with false by reflexivity.
    rewrite <- app_comm_cons in Hp. rewrite Hp. reflexivity.
Qed.

(** Splitting. *)


Lemma split_eq_single (l : list ascii) : forallb no_eq l = true -> split_eq l = [l].
Proof.
  induction l as [|c l IH]; [reflexivity|]. cbn [forallb]. intros H.
  apply andb_prop in H as [H1 H2]. unfold no_eq in H1. apply negb_true_iff in H1.
  cbn [split_eq]. rewrite H1, IH by exact H2. reflexivity.
Qed.

Lemma split_eq_pair (k v : list ascii) :
  forallb no_eq k = true -> forallb no_eq v = true -> split_eq (k ++ "="%char :: v) = [k; v].
Proof.
  intros Hk Hv. induction k as [|c k IH].
  - cbn. rewrite split_eq_single by exact Hv. reflexivity.
  - cbn [forallb] in Hk. apply andb_prop in Hk as [H1 H2].
    unfold no_eq in H1. apply negb_true_iff in H1.
    cbn [app split_eq]. rewrite H1, IH by exact H2. reflexivity.
Qed.

Lemma split_semi_cons (c : ascii) (l : list ascii) :
  Ascii.eqb c ";" = false -> split_semi (c :: l) = cons_head c (split_semi l).
Proof. intros H. destruct l; cbn [split_semi]; [reflexivity|]. rewrite H. reflexivity. Qed.

Lemma split_semi_single (l : list ascii) : forallb no_semi l = true -> split_semi l = [l].
Proof.
  induction l as [|c l IH]; [reflexivity|]. cbn [forallb]. intros H.
  apply andb_prop in H as [H1 H2]. unfold no_semi in H1. apply negb_true_iff in H1.
  rewrite split_semi_cons, IH by assumption. reflexivity.
Qed.

Lemma split_semi_app (x rest : list ascii) :
  forallb no_semi x = true -> split_semi (x ++ semi_sep ++ rest) = x :: split_semi rest.
Proof.
  induction x as [|c x IH]; intros H; [reflexivity|].
  cbn [forallb] in H. apply andb_prop in H as [H1 H2].
  unfold no_semi in H1. apply negb_true_iff in H1.
  rewrite <- app_comm_cons, split_semi_cons, IH by assumption. reflexivity.
Qed.

Lemma split_semi_join (ps : list (list ascii)) :
  ps <> [] -> forallb (forallb no_semi) ps = true -> split_semi (join semi_sep ps) = ps.
Proof.
  induction ps as [|p ps IH]; intros Hne H; [contradiction|].
  cbn [forallb] in H. apply andb_prop in H as [H1 H2].
  destruct ps as [|p2 ps'].
  - cbn [join]. apply split_semi_single, H1.
  - change (join semi_sep (p :: p2 :: ps')) with (p ++ semi_sep ++ join semi_sep (p2 :: ps')).
    rewrite split_semi_app, IH by (auto; discriminate). reflexivity.
Qed.

Lemma before_semi_join (p : list ascii) (ps : list (list ascii)) :
  forallb no_semi p = true -> before_semi (join semi_sep (p :: ps)) = p.
Proof.
  intros H. assert (E : exists rest, join semi_sep (p :: ps) = p ++ rest /\
                          match rest with [] => True | c :: _ => c = ";"%char end).
  { destruct ps as [|p2 ps']; [exists []; split; [symmetry; apply app_nil_r | exact I]|].
    eexists. split; [reflexivity|]. reflexivity. }
  destruct E as (rest & -> & Hr). induction p as [|c p IH].
  - destruct rest as [|c rest]; [reflexivity|]. subst c. reflexivity.
  - cbn [forallb] in H. apply andb_prop in H as [H1 H2].
    unfold no_semi in H1. apply negb_true_iff in H1.
    cbn [app before_semi]. rewrite H1, IH by exact H2. reflexivity.
Qed.

(** Decoding text without escapes. *)

Lemma decode_app_plain (p l : list ascii) :
  forallb (fun c => negb (Ascii.eqb c "%")) p = true ->
  decode_chars (p ++ l) = obind (decode_chars l) (fun r => Value (p ++ r)).
Proof.
  induction p as [|c p IH]; intros H.
  - cbn. destruct (decode_chars l); reflexivity.
  - cbn [forallb] in H. apply andb_prop in H as [H1 H2]. apply negb_true_iff in H1.
    cbn [app decode_chars]. rewrite H1, IH by exact H2. unfold cons_out.
    destruct (decode_chars l); reflexivity.
Qed.

Lemma take_line_text (t : list ascii) : forallb text_char t = true -> take_line t = t.
Proof.
  induction t as [|c t IH]; [reflexivity|]. cbn [forallb]. intros H.
  apply andb_prop in H as [H1 H2]. unfold text_char in H1. apply negb_true_iff in H1.
  cbn [take_line]. rewrite H1, IH by exact H2. reflexivity.
Qed.

Lemma strip_prefix_app (p l : list ascii) : strip_prefix p (p ++ l) = Some l.
Proof.
  induction p as [|a p IH]; [reflexivity|]. cbn [app strip_prefix].
  rewrite Ascii.eqb_refl. exact IH.
Qed.

Lemma json_tag_text (t : list ascii) :
  text_ok t = true -> json_tag (list_ascii_of_string "json:" ++ t) = Some t.
Proof.
  unfold text_ok. intros H. apply andb_prop in H as [H1 H2].
  unfold json_tag. rewrite strip_prefix_app, take_line_text by exact H2.
  destruct t; [discriminate H1|reflexivity].
Qed.

(** The pair [set_cookie] writes, read back by [load_cookies]. *)

Lemma cookie_chars_split (r : list ascii) : forallb cookie_char r = true ->
  forallb no_eq r = true /\ forallb no_semi r = true.
Proof.
  induction r as [|c r IH]; [auto|]. cbn [forallb]. intros H.
  apply andb_prop in H as [H1 H2]. destruct (IH H2) as [-> ->].
  unfold cookie_char in H1. unfold no_eq, no_semi.
  destruct (Ascii.eqb c ";"), (Ascii.eqb c "="); cbn in *; try discriminate; auto.
Qed.

Lemma encode_no_eq (l : list ascii) : forallb no_eq (encodeURIComponent l) = true.
Proof. apply cookie_chars_split, encode_safe. Qed.

Lemma encode_no_semi (l : list ascii) : forallb no_semi (encodeURIComponent l) = true.
Proof. apply cookie_chars_split, encode_safe. Qed.

Lemma key_ok_proto (k : string) : key_ok k = true -> k <> "__proto__"%string.
Proof.
  unfold key_ok. intros H ->. discriminate H.
Qed.

Lemma key_ok_split (k : string) : key_ok k = true ->
  forallb no_eq (list_ascii_of_string k) = true /\ forallb no_semi (list_ascii_of_string k) = true.
Proof.
  unfold key_ok, key_chars_ok. intros H. apply andb_prop in H as [H _]. revert H.
  induction (list_ascii_of_string k) as [|c l IH]; [auto|].
  cbn [forallb]. intros H. apply andb_prop in H as [H1 H2]. apply andb_prop in H1 as [E1 E2].
  destruct (IH H2) as [I1 I2]. rewrite I1, I2. unfold no_eq, no_semi. rewrite E1, E2. auto.
Qed.

Lemma cookie_pair_round_trip (k : string) (v : jsval) :
  key_ok k = true -> value_ok v = true ->
  exists p, cookie_pair k v = Value p /\ forallb no_semi p = true /\ load_one p = Value (k, v).
Proof.
  intros Hk Hv. destruct (key_ok_split k Hk) as [Ke Ks].
  assert (Hval : exists cv, cookie_value v = Value cv /\ forallb no_eq cv = true /\
                   forallb no_semi cv = true /\
                   obind (decodeURIComponent cv) (fun value =>
                     match json_tag value with
                     | Some body => obind (json_parse body) (fun x => Value (k, x))
                     | None => Value (k, JStr (string_of_list_ascii value))
                     end) = Value (k, v)).
  { destruct v as [s|n|ps].
    - exists (encodeURIComponent (list_ascii_of_string s)). split; [reflexivity|].
      split; [apply encode_no_eq|]. split; [apply encode_no_semi|].
      rewrite decode_encode. cbn [obind value_ok] in *.
      destruct (json_tag (list_ascii_of_string s)); [discriminate Hv|].
      rewrite string_of_list_ascii_of_string. reflexivity.
    - destruct (json_round_trip (JNum n) Hv) as (t & Ht & Hto & Hp).
      exists (list_ascii_of_string "json:" ++ encodeURIComponent t).
      split; [cbn [cookie_value]; rewrite Ht; reflexivity|].
      split; [cbn [forallb]; apply encode_no_eq|]. split; [cbn [forallb]; apply encode_no_semi|].
      unfold decodeURIComponent. rewrite decode_app_plain by reflexivity.
      pose proof (decode_encode t) as D. unfold decodeURIComponent in D. rewrite D.
      cbn [obind]. rewrite json_tag_text, Hp by exact Hto. reflexivity.
    - destruct (json_round_trip (JObj ps) Hv) as (t & Ht & Hto & Hp).
      exists (list_ascii_of_string "json:" ++ encodeURIComponent t).
      split; [cbn [cookie_value]; rewrite Ht; reflexivity|].
      split; [cbn [forallb]; apply encode_no_eq|]. split; [cbn [forallb]; apply encode_no_semi|].
      unfold decodeURIComponent. rewrite decode_app_plain by reflexivity.
      pose proof (decode_encode t) as D. unfold decodeURIComponent in D. rewrite D.
      cbn [obind]. rewrite json_tag_text, Hp by exact Hto. reflexivity. }
  destruct Hval as (cv & Hcv & He & Hs & Hl).
  exists (list_ascii_of_string k ++ "="%char :: cv).
  split; [unfold cookie_pair; rewrite Hcv; reflexivity|].
  split; [rewrite forallb_app; cbn [forallb]; rewrite Ks, Hs; reflexivity|].
  unfold load_one. rewrite split_eq_pair by assumption. cbn [hd nth_error].
  rewrite string_of_list_ascii_of_string. exact Hl.
Qed.

(** Object updates. *)

Lemma prop_get_set_same {A : Type} (k : string) (v : A) (ps : list (string * A)) :
  prop_get k (prop_set k v ps) = Some v.
Proof.
  induction ps as [|[k' v'] ps IH]; cbn [prop_set prop_get].
  - rewrite String.eqb_refl. reflexivity.
  - destruct (String.eqb k k') eqn:E; cbn [prop_get].
    + rewrite String.eqb_refl. reflexivity.
    + rewrite E. exact IH.
Qed.

Lemma prop_get_set_other {A : Type} (k k2 : string) (v : A) (ps : list (string * A)) :
  k2 <> k -> prop_get k2 (prop_set k v ps) = prop_get k2 ps.
Proof.
  intros Hne. induction ps as [|[k' v'] ps IH]; cbn [prop_set prop_get].
  - apply String.eqb_neq in Hne. rewrite Hne. reflexivity.
  - destruct (String.eqb k k') eqn:E; cbn [prop_get].
    + apply String.eqb_eq in E. subst k'. apply String.eqb_neq in Hne. rewrite Hne. reflexivity.
    + rewrite IH. reflexivity.
Qed.

Lemma prop_get_map_in (f : string -> bool) (d : string) (ids : list string) :
  In d ids -> prop_get d (map (fun id => (id, f id)) ids) = Some (f d).
Proof.
  induction ids as [|i ids IH]; [contradiction|]. intros [->|H]; cbn [map prop_get].
  - rewrite String.eqb_refl. reflexivity.
  - destruct (String.eqb d i) eqn:E; [apply String.eqb_eq in E; subst i; reflexivity|].
    apply IH, H.
Qed.

(** Assignments to properties other than [__proto__]. *)

Lemma assign_primitive_plain (k : string) (v : jsval) (ps : list (string * jsval)) :
  k <> "__proto__"%string -> assign_primitive k v ps = prop_set k v ps.
Proof.
  intros Hk. unfold assign_primitive. apply String.eqb_neq in Hk. rewrite Hk.
  destruct (prop_get k ps); reflexivity.
Qed.

Lemma js_assign_plain (k : string) (v : jsval) (ps : list (string * jsval)) :
  k <> "__proto__"%string -> js_assign k v ps = Value (prop_set k v ps).
Proof.
  intros Hk. unfold js_assign. rewrite assign_primitive_plain by exact Hk.
  apply String.eqb_neq in Hk. rewrite Hk.
  destruct v; [reflexivity|reflexivity|]. destruct (prop_get k ps); reflexivity.
Qed.

Lemma js_assign_own (k : string) (v x : jsval) (ps : list (string * jsval)) :
  prop_get k ps = Some x -> js_assign k v ps = Value (prop_set k v ps).
Proof.
  intros H. unfold js_assign, assign_primitive. rewrite H. destruct v; reflexivity.
Qed.

Lemma prop_get_assign_other (k d : string) (v : jsval) (ps : list (string * jsval)) :
  d <> k -> prop_get d (assign_primitive k v ps) = prop_get d ps.
Proof.
  intros H. unfold assign_primitive.
  destruct (prop_get k ps); [apply prop_get_set_other, H|].
  destruct (String.eqb k "__proto__"); [reflexivity|apply prop_get_set_other, H].
Qed.

(** Several pairs joined as the browser presents them. *)

Lemma load_segments_pairs (kvs : list (string * jsval)) (acc : list (string * jsval)) :
  forallb (fun kv => key_ok (fst kv) && value_ok (snd kv)) kvs = true ->
  exists pairs,
    map (fun kv => cookie_pair (fst kv) (snd kv)) kvs = map Value pairs /\
    forallb (forallb no_semi) pairs = true /\
    load_segments pairs acc = Value (fold_left (fun v kv => prop_set (fst kv) (snd kv) v) kvs acc).
Proof.
  revert acc. induction kvs as [|[k v] kvs IH]; intros acc H.
  - exists []. auto.
  - cbn [forallb fst snd] in H. apply andb_prop in H as [H1 H2]. apply andb_prop in H1 as [Hk Hv].
    destruct (cookie_pair_round_trip k v Hk Hv) as (p & Hp & Hs & Hl).
    destruct (IH (prop_set k v acc) H2) as (ps & Hm & Hss & Hls).
    exists (p :: ps). cbn [map fst snd forallb load_segments fold_left].
    rewrite Hp, Hm, Hs, Hss, Hl. cbn [obind].
    rewrite js_assign_plain by exact (key_ok_proto k Hk). cbn [obind]. auto.
Qed.

(** A successful [set_cookie] and what the options give. *)

Lemma set_cookie_success (env : cookie_env) (k : string) (v : jsval) (o : cookie_opts)
    (st : store) (vs : list (string * jsval)) (p : list ascii) (ps : list (list ascii)) :
  js_assign k v (vault st) = Value vs ->
  cookie_pair k v = Value p -> opt_parts (opt_steps env) o = Value ps ->
  set_cookie env k v (Some o) st =
    (mk_store vs (join semi_sep (p :: ps) :: written st), Value tt).
Proof.
  intros Hv Hp Hps. unfold set_cookie. rewrite Hv, Hp. cbn [obind]. rewrite Hps. reflexivity.
Qed.

Lemma set_cookie_vault (env : cookie_env) (k : string) (v : jsval) (o : option cookie_opts)
    (st : store) (vs : list (string * jsval)) :
  js_assign k v (vault st) = Value vs -> vault (fst (set_cookie env k v o st)) = vs.
Proof. intros Hv. unfold set_cookie. rewrite Hv. destruct (obind _ _); reflexivity. Qed.

Lemma opt_parts_expires (env : cookie_env) (t : Z) :
  opt_parts (opt_steps env) [("expires"%string, ODate t)] =
    Value [list_ascii_of_string "expires=" ++ to_utc_string env t;
           list_ascii_of_string "domain=.bin.sh"; list_ascii_of_string "path=/";
           list_ascii_of_string "secure"].
Proof. reflexivity. Qed.

Lemma opt_choice_secure (o : cookie_opts) : exists v, opt_choice o "secure" = Some v.
Proof.
  unfold opt_choice. destruct (truthy_optval (prop_get "secure" o)) eqn:E.
  - destruct (prop_get "secure" o); [eauto|discriminate E].
  - cbn. eauto.
Qed.

Lemma opt_parts_secure (env : cookie_env) (o : cookie_opts) (ps : list (list ascii)) :
  opt_parts (opt_steps env) o = Value ps ->
  exists ps0, ps = ps0 ++ [list_ascii_of_string "secure"].
Proof.
  destruct (opt_choice_secure o) as [sv Hs].
  unfold opt_steps. cbn [opt_parts]. rewrite Hs. cbn [obind].
  destruct (opt_choice o "expires") as [e|]; [destruct (expires_fn env e) as [x| |]|];
    cbn [obind]; try discriminate;
  (destruct (opt_choice o "domain") as [dv|]; [destruct (template_string dv) as [y| |]|];
    cbn [obind]; try discriminate);
  (destruct (opt_choice o "path") as [pv|]; [destruct (template_string pv) as [z| |]|];
    cbn [obind]; try discriminate);
  intros H; injection H as <-; eexists;
  match goal with |- ?a :: ?b :: ?c :: _ = _ => now (instantiate (1 := [a; b; c])) 
            | |- ?a :: ?b :: _ = _ => now (instantiate (1 := [a; b]))
            | |- ?a :: _ = _ => now (instantiate (1 := [a]))
            | |- _ => now (instantiate (1 := []))
  end.
Qed.

Lemma opt_parts_expires_first (env : cookie_env) (o : cookie_opts) (e : optval) :
  opt_choice o "expires" = Some e ->
  opt_parts (opt_steps env) o =
    obind (expires_fn env e) (fun p => obind (opt_parts (tl (opt_steps env)) o) (fun ps => Value (p :: ps))).
Proof. intros H. change (opt_parts (opt_steps env) o) with
  (match opt_choice o "expires" with
   | Some v => obind (expires_fn env v) (fun p => obind (opt_parts (tl (opt_steps env)) o) (fun ps => Value (p :: ps)))
   | None => opt_parts (tl (opt_steps env)) o end). rewrite H. reflexivity. Qed.

Lemma join_snoc (sep x z : list ascii) (ys : list (list ascii)) :
  join sep (x :: ys ++ [z]) = join sep (x :: ys) ++ sep ++ z.
Proof.
  revert x. induction ys as [|y ys IH]; intros x; [reflexivity|].
  change (join sep (x :: (y :: ys) ++ [z])) with (x ++ sep ++ join sep (y :: ys ++ [z])).
  rewrite IH. change (join sep (x :: y :: ys)) with (x ++ sep ++ join sep (y :: ys)).
  rewrite !app_assoc. reflexivity.
Qed.

Lemma join_cons_prefix (sep x : list ascii) (ys : list (list ascii)) :
  exists rest, join sep (x :: ys) = x ++ rest.
Proof. destruct ys; [exists []; symmetry; apply app_nil_r|eexists; reflexivity]. Qed.

(** * Extra properties of the cookie code *)

(** X1: pairs with keys free of [=] and [;] other than [__proto__], and
    values in the modelled JSON fragment, as [set_cookie] writes them and the browser joins them with
    ["; "], are read back by [load_cookies] as the vault holding each key's
    last value. *)
Theorem load_cookies_written (kvs : list (string * jsval)) :
  kvs <> [] ->
  forallb (fun kv => key_ok (fst kv) && value_ok (snd kv)) kvs = true ->
  exists pairs,
    map (fun kv => cookie_pair (fst kv) (snd kv)) kvs = map Value pairs /\
    load_cookies (join semi_sep pairs) =
      Value (fold_left (fun v kv => prop_set (fst kv) (snd kv) v) kvs []).
Proof.
  intros Hne H. destruct (load_segments_pairs kvs [] H) as (ps & Hm & Hs & Hl).
  exists ps. split; [exact Hm|]. unfold load_cookies. rewrite split_semi_join; [exact Hl| |exact Hs].
  intros ->. destruct kvs; [contradiction|discriminate Hm].
Qed.

(** X2: a string value that starts with [json:] is written as it is and read
    back through [JSON.parse] of the text after [json:]: it comes back as
    another value, or [load_cookies] throws. *)
Theorem load_json_tagged_string (k s : string) (body : list ascii) :
  key_ok k = true -> json_tag (list_ascii_of_string s) = Some body ->
  exists p, cookie_pair k (JStr s) = Value p /\
    load_cookies p = obind (json_parse body) (fun x => Value [(k, x)]).
Proof.
  intros Hk Ht. destruct (key_ok_split k Hk) as [Ke Ks].
  exists (list_ascii_of_string k ++ "="%char :: encodeURIComponent (list_ascii_of_string s)).
  split; [reflexivity|]. unfold load_cookies.
  rewrite split_semi_single
    by (rewrite forallb_app; cbn [forallb]; rewrite Ks, encode_no_semi; reflexivity).
  cbn [load_segments]. unfold load_one.
  rewrite split_eq_pair by (auto using encode_no_eq). cbn [hd nth_error].
  rewrite decode_encode. cbn [obind]. rewrite Ht, string_of_list_ascii_of_string.
  destruct (json_parse body) as [x| |]; cbn [obind]; [|reflexivity|reflexivity].
  rewrite js_assign_plain by exact (key_ok_proto k Hk). reflexivity.
Qed.

(** X3: a [document.cookie] segment without [=] (the empty [document.cookie]
    too) loads as that key with the string ["undefined"]; the segment
    [__proto__] leaves the vault empty, the prototype's setter ignoring
    the string. *)
Theorem load_segment_without_value (seg : list ascii) :
  forallb no_eq seg = true -> forallb no_semi seg = true ->
  load_cookies seg =
    Value (if String.eqb (string_of_list_ascii seg) "__proto__" then []
           else [(string_of_list_ascii seg, JStr "undefined")]).
Proof.
  intros He Hs. unfold load_cookies. rewrite split_semi_single by exact Hs.
  assert (H1 : load_one seg = Value (string_of_list_ascii seg, JStr "undefined")).
  { unfold load_one. rewrite split_eq_single by exact He. reflexivity. }
  cbn [load_segments]. rewrite H1. cbn [obind]. unfold js_assign, assign_primitive.
  cbn [prop_get prop_set]. destruct (String.eqb (string_of_list_ascii seg) "__proto__"); reflexivity.
Qed.

(** X4: without options [set_cookie] assigns the value in the vault and then
    throws a TypeError reading [opts[step.key]]; no cookie is written. *)
Theorem set_cookie_without_opts (env : cookie_env) (k : string) (v : jsval) (st : store)
    (vs : list (string * jsval)) (p : list ascii) :
  js_assign k v (vault st) = Value vs -> cookie_pair k v = Value p ->
  set_cookie env k v None st = (mk_store vs (written st), Raise (JsError TypeError)).
Proof. intros Hv Hp. unfold set_cookie. rewrite Hv, Hp. reflexivity. Qed.

(** X5: every cookie line [set_cookie] writes ends with ["; secure"], whatever
    the options, and the vault is the result of [vault[key] = value]. *)
Theorem set_cookie_always_secure (env : cookie_env) (k : string) (v : jsval)
    (o : option cookie_opts) (st st' : store) :
  set_cookie env k v o st = (st', Value tt) ->
  js_assign k v (vault st) = Value (vault st') /\
  exists pre, written st' = (pre ++ semi_sep ++ list_ascii_of_string "secure") :: written st.
Proof.
  unfold set_cookie. destruct (js_assign k v (vault st)) as [vs| |]; [|discriminate|discriminate].
  destruct (cookie_pair k v) as [p| |]; cbn [obind]; try discriminate.
  destruct o as [o|]; [|discriminate]. destruct (opt_parts (opt_steps env) o) as [ps| |] eqn:E;
    cbn [obind]; try discriminate.
  intros H. injection H as <-. split; [reflexivity|].
  destruct (opt_parts_secure env o ps E) as [ps0 ->].
  exists (join semi_sep (p :: ps0)). rewrite <- join_snoc. reflexivity.
Qed.

(** X6: options without a truthy [expires], [domain] or [path] give the line
    [key=value; domain=.bin.sh; path=/; secure]. *)
Theorem set_cookie_default_opts (env : cookie_env) (k : string) (v : jsval) (o : cookie_opts)
    (st : store) (vs : list (string * jsval)) (p : list ascii) :
  truthy_optval (prop_get "expires" o) = false ->
  truthy_optval (prop_get "domain" o) = false ->
  truthy_optval (prop_get "path" o) = false ->
  js_assign k v (vault st) = Value vs -> cookie_pair k v = Value p ->
  set_cookie env k v (Some o) st =
    (mk_store vs ((p ++ list_ascii_of_string "; domain=.bin.sh; path=/; secure") :: written st),
     Value tt).
Proof.
  intros He Hd Hpa Hv Hp.
  rewrite (set_cookie_success env k v o st vs p [list_ascii_of_string "domain=.bin.sh";
             list_ascii_of_string "path=/"; list_ascii_of_string "secure"] Hv Hp); [reflexivity|].
  destruct (opt_choice_secure o) as [sv Hs].
  unfold opt_steps. cbn [opt_parts]. rewrite Hs.
  unfold opt_choice. rewrite He, Hd, Hpa. reflexivity.
Qed.

(** X7: an [expires] string other than [now] and [never] throws a TypeError
    after the vault was updated; no cookie is written. *)
Theorem set_cookie_bad_expires (env : cookie_env) (k : string) (v : jsval) (o : cookie_opts)
    (st : store) (vs : list (string * jsval)) (s : string) (p : list ascii) :
  prop_get "expires" o = Some (OStr s) ->
  s <> EmptyString -> s <> "now"%string -> s <> "never"%string ->
  js_assign k v (vault st) = Value vs -> cookie_pair k v = Value p ->
  set_cookie env k v (Some o) st = (mk_store vs (written st), Raise (JsError TypeError)).
Proof.
  intros He H0 Hn Hv Ha Hp. unfold set_cookie. rewrite Ha, Hp. cbn [obind].
  unfold opt_steps. cbn [opt_parts]. unfold opt_choice at 1. rewrite He. cbn [truthy_optval opt_truthy].
  apply String.eqb_neq in H0, Hn, Hv. rewrite H0. cbn [negb]. unfold expires_fn.
  rewrite Hn, Hv. reflexivity.
Qed.

(** X8: a successful [persistent_cookie] writes [key=value; expires=] followed
    by the UTC text of the [never] date. *)
Theorem persistent_cookie_line (env : cookie_env) (k : string) (v : jsval)
    (o : option cookie_opts) (st st' : store) :
  persistent_cookie env k v o st = (st', Value tt) ->
  js_assign k v (vault st) = Value (vault st') /\
  exists p rest, cookie_pair k v = Value p /\
    written st' = (p ++ semi_sep ++ list_ascii_of_string "expires=" ++
                   to_utc_string env (never env) ++ rest) :: written st.
Proof.
  unfold persistent_cookie, set_cookie.
  destruct (js_assign k v (vault st)) as [vs| |]; [|discriminate|discriminate].
  destruct (cookie_pair k v) as [p| |]; cbn [obind]; try discriminate.
  set (o' := match o with Some o => _ | None => _ end).
  assert (Hc : opt_choice o' "expires" = Some (ODate (never env))).
  { unfold opt_choice. assert (Hg : prop_get "expires" o' = Some (ODate (never env))).
    { subst o'. destruct o; [apply prop_get_set_same|reflexivity]. }
    rewrite Hg. reflexivity. }
  rewrite (opt_parts_expires_first env o' _ Hc). cbn [obind expires_fn].
  destruct (opt_parts (tl (opt_steps env)) o') as [ps| |]; cbn [obind]; try discriminate.
  intros H. injection H as <-. split; [reflexivity|]. exists p.
  destruct (join_cons_prefix semi_sep (list_ascii_of_string "expires=" ++ to_utc_string env (never env)) ps)
    as [rest Hr].
  exists rest. split; [reflexivity|].
  rewrite (app_assoc (list_ascii_of_string "expires=")), <- Hr. reflexivity.
Qed.

(** X9: [delete_cookie] without options, when [vault[key]] is truthy (an own
    property, or one inherited from [Object.prototype]), deletes the own
    property, assigns the empty string (ignored for [__proto__]) and writes
    [key=; expires=<forthwith>; domain=.bin.sh; path=/; secure]; on a
    falsy or missing value it does nothing. *)
Theorem delete_cookie_effect (env : cookie_env) (k : string) (st : store) :
  delete_cookie env k None st =
    if truthy_read (js_read k (vault st)) then
      (mk_store (assign_primitive k (JStr EmptyString) (prop_delete k (vault st)))
         (join semi_sep [list_ascii_of_string k ++ ["="%char];
                         list_ascii_of_string "expires=" ++ to_utc_string env (forthwith env);
                         list_ascii_of_string "domain=.bin.sh"; list_ascii_of_string "path=/";
                         list_ascii_of_string "secure"] :: written st), Value tt)
    else (st, Value tt).
Proof.
  unfold delete_cookie. destruct (truthy_read (js_read k (vault st))); [|reflexivity].
  erewrite set_cookie_success; [reflexivity|reflexivity|reflexivity|apply opt_parts_expires].
Qed.



(** set_cookie_chip *)

Lemma js_read_get (k : string) (ps : list (string * jsval)) (v : jsval) :
  prop_get k ps = Some v -> js_read k ps = Own v.
Proof. intros H. unfold js_read. rewrite H. reflexivity. Qed.

Lemma js_read_own (k : string) (ps : list (string * jsval)) (v : jsval) :
  js_read k ps = Own v -> prop_get k ps = Some v.
Proof.
  unfold js_read. destruct (prop_get k ps); [congruence|].
  destruct (is_prototype_name k); discriminate.
Qed.

Lemma js_read_missing (k : string) (ps : list (string * jsval)) :
  js_read k ps = Missing -> k <> "__proto__"%string /\ prop_get k ps = None.
Proof.
  unfold js_read. destruct (prop_get k ps); [discriminate|].
  destruct (is_prototype_name k) eqn:E; [discriminate|]. intros _.
  split; [intros ->; discriminate E|reflexivity].
Qed.

(** X10: when [vault[key]] is an own object, an own falsy value, or missing
    (no own property and no name of [Object.prototype]), [set_cookie_chip]
    with a chip other than [__proto__] leaves in the vault an object whose
    chip [c] is the new value and whose other chips are those of the old
    object. *)
Theorem set_cookie_chip_object (env : cookie_env) (k c : string) (x : jsval)
    (o : option cookie_opts) (st : store) :
  c <> "__proto__"%string ->
  js_read k (vault st) = Missing \/
  (exists v, js_read k (vault st) = Own v /\ (truthy v = false \/ exists ps, v = JObj ps)) ->
  exists e, prop_get k (vault (fst (set_cookie_chip env k c x o st))) = Some e /\
    forall c', js_get c' e =
      if String.eqb c' c then Some x
      else match js_read k (vault st) with Own v => js_get c' v | _ => None end.
Proof.
  intros Hc H. unfold set_cookie_chip, persistent_cookie.
  destruct H as [Hm|(v & Hv & Hf)].
  - destruct (js_read_missing k (vault st) Hm) as [Hk _]. rewrite Hm. cbn [obind set_chip].
    rewrite js_assign_plain by exact Hc. cbn [obind].
    rewrite (set_cookie_vault _ _ _ _ _ _ (js_assign_plain k _ (vault st) Hk)), prop_get_set_same.
    eexists. split; [reflexivity|]. intros c'. cbn [js_get prop_set prop_get].
    destruct (String.eqb c' c); reflexivity.
  - pose proof (js_read_own k (vault st) v Hv) as Hg. rewrite Hv.
    destruct Hf as [Hf|[ps ->]].
    + rewrite Hf. cbn [obind set_chip]. rewrite js_assign_plain by exact Hc. cbn [obind].
      rewrite (set_cookie_vault _ _ _ _ _ _ (js_assign_own k _ v (vault st) Hg)), prop_get_set_same.
      eexists. split; [reflexivity|]. intros c'. cbn [js_get prop_set prop_get].
      destruct (String.eqb c' c); [reflexivity|].
      destruct v; [reflexivity|reflexivity|discriminate Hf].
    + cbn [truthy obind set_chip]. rewrite js_assign_plain by exact Hc. cbn [obind].
      rewrite (set_cookie_vault _ _ _ _ _ _ (js_assign_own k _ (JObj ps) (vault st) Hg)),
        prop_get_set_same.
      eexists. split; [reflexivity|]. intros c'. cbn [js_get]. destruct (String.eqb c' c) eqn:E.
      * apply String.eqb_eq in E. subst c'. apply prop_get_set_same.
      * apply prop_get_set_other. intros ->. rewrite String.eqb_refl in E. discriminate.
Qed.

(** X11: when the vault value is a truthy string or number, [set_cookie_chip]
    leaves it unchanged: the chip is lost. *)
Theorem set_cookie_chip_primitive (env : cookie_env) (k c : string) (x : jsval)
    (o : option cookie_opts) (st : store) (v : jsval) :
  prop_get k (vault st) = Some v -> truthy v = true -> (forall ps, v <> JObj ps) ->
  prop_get k (vault (fst (set_cookie_chip env k c x o st))) = Some v.
Proof.
  intros H Ht Hn. unfold set_cookie_chip, persistent_cookie.
  rewrite (js_read_get k (vault st) v H), Ht.
  destruct v as [s|n|ps]; [| |exfalso; exact (Hn ps eq_refl)]; cbn [obind set_chip];
    rewrite (set_cookie_vault _ _ _ _ _ _ (js_assign_own k _ _ (vault st) H));
    apply prop_get_set_same.
Qed.

(** Dark mode *)

Lemma delete_cookie_truthy (env : cookie_env) (k : string) (st : store) :
  k <> "__proto__"%string -> truthy_opt (prop_get k (vault st)) = true ->
  delete_cookie env k None st =
    (mk_store (prop_set k (JStr EmptyString) (prop_delete k (vault st)))
       (join semi_sep [list_ascii_of_string k ++ ["="%char];
                       list_ascii_of_string "expires=" ++ to_utc_string env (forthwith env);
                       list_ascii_of_string "domain=.bin.sh"; list_ascii_of_string "path=/";
                       list_ascii_of_string "secure"] :: written st), Value tt).
Proof.
  intros Hk H. unfold delete_cookie, js_read.
  destruct (prop_get k (vault st)) as [v|]; [|discriminate H]. cbn [truthy_opt] in H.
  cbn [truthy_read]. rewrite H.
  erewrite set_cookie_success; [reflexivity|apply js_assign_plain, Hk|reflexivity|apply opt_parts_expires].
Qed.

Lemma persistent_cookie_none (env : cookie_env) (k : string) (v : jsval) (st : store)
    (p : list ascii) :
  k <> "__proto__"%string -> cookie_pair k v = Value p ->
  persistent_cookie env k v None st =
    (mk_store (prop_set k v (vault st))
       (join semi_sep [p; list_ascii_of_string "expires=" ++ to_utc_string env (never env);
                       list_ascii_of_string "domain=.bin.sh"; list_ascii_of_string "path=/";
                       list_ascii_of_string "secure"] :: written st), Value tt).
Proof.
  intros Hk Hp. unfold persistent_cookie.
  erewrite set_cookie_success; [reflexivity|apply js_assign_plain, Hk|exact Hp|apply opt_parts_expires].
Qed.

Lemma toggle_dark_mode_step (env : cookie_env) (p : dark_page) :
  let p' := fst (toggle_dark_mode env p) in
  body_dark p' = negb (truthy_opt (prop_get "dark_mode" (vault (dm_store p)))) /\
  truthy_opt (prop_get "dark_mode" (vault (dm_store p'))) = body_dark p' /\
  length (written (dm_store p')) = S (length (written (dm_store p))) /\
  toggle_value p' = option_map (fun _ => if body_dark p' then "Undark Mode"%string else "Dark Mode"%string)
                      (toggle_value p) /\
  exists l, written (dm_store p') = l :: written (dm_store p) /\
    exists v, load_cookies (before_semi l) = Value v /\
      truthy_opt (prop_get "dark_mode" v) = body_dark p'.
Proof.
  unfold toggle_dark_mode. destruct (truthy_opt (prop_get "dark_mode" (vault (dm_store p)))) eqn:E.
  - unfold disable_dark_mode. cbn [dm_store]. rewrite (delete_cookie_truthy env "dark_mode" _ ltac:(discriminate) E).
    cbn [with_store fst snd dm_store body_dark toggle_value vault written].
    rewrite prop_get_set_same. split; [reflexivity|]. split; [reflexivity|].
    split; [reflexivity|]. split; [destruct (toggle_value p); reflexivity|].
    eexists. split; [reflexivity|]. rewrite before_semi_join by reflexivity.
    eexists. split; reflexivity.
  - unfold enable_dark_mode. cbn [dm_store].
    rewrite (persistent_cookie_none env "dark_mode" (JNum 1) _ (list_ascii_of_string "dark_mode=json:1"))
      by first [reflexivity|discriminate].
    cbn [with_store fst snd dm_store body_dark toggle_value vault written].
    rewrite prop_get_set_same. split; [reflexivity|]. split; [reflexivity|].
    split; [reflexivity|]. split; [destruct (toggle_value p); reflexivity|].
    eexists. split; [reflexivity|]. rewrite before_semi_join by reflexivity.
    eexists. split; reflexivity.
Qed.

(** X12: after the page loads and the button is clicked [n] times, the body is
    dark exactly when the [dark_mode] cookie is truthy, this flips with
    every click, and each click writes one cookie line. *)
Theorem dark_mode_toggles (env : cookie_env) (st : store) (button : option string) (n : nat) :
  let p := toggles env n (dark_mode_loaded st button) in
  body_dark p = xorb (Nat.odd n) (truthy_opt (prop_get "dark_mode" (vault st))) /\
  body_dark p = truthy_opt (prop_get "dark_mode" (vault (dm_store p))) /\
  length (written (dm_store p)) = (n + length (written st))%nat.
Proof.
  assert (G : forall p, body_dark p = truthy_opt (prop_get "dark_mode" (vault (dm_store p))) ->
    let p' := toggles env n p in
    body_dark p' = xorb (Nat.odd n) (body_dark p) /\
    body_dark p' = truthy_opt (prop_get "dark_mode" (vault (dm_store p'))) /\
    length (written (dm_store p')) = (n + length (written (dm_store p)))%nat).
  { induction n as [|n IH]; intros p Hs.
    - cbn. auto.
    - cbn [toggles]. destruct (toggle_dark_mode_step env p) as (H1 & H2 & H3 & _).
      destruct (IH _ (eq_sym H2)) as (I1 & I2 & I3). split; [|split; [exact I2|]].
      + rewrite I1, H1, <- Hs, Nat.odd_succ, <- Nat.negb_odd.
        destruct (Nat.odd n), (body_dark p); reflexivity.
      + rewrite I3, H3. lia. }
  unfold dark_mode_loaded. destruct (truthy_opt (prop_get "dark_mode" (vault st))) eqn:E.
  - destruct (G (enable_dark_mode (mk_dark_page st false button))) as (H1 & H2 & H3);
      [cbn; symmetry; exact E|].
    cbv zeta. split; [exact H1|split; [exact H2|exact H3]].
  - destruct (G (mk_dark_page st false button)) as (H1 & H2 & H3); [cbn; symmetry; exact E|].
    cbv zeta. split; [exact H1|split; [exact H2|exact H3]].
Qed.

(** X13: the cookie line a click writes, as the browser keeps it, restores on
    the next page load the dark mode the click set; the button shows the
    text for the new mode. *)
Theorem dark_mode_reload (env : cookie_env) (p : dark_page) (button : option string) :
  let p' := fst (toggle_dark_mode env p) in
  exists l, written (dm_store p') = l :: written (dm_store p) /\
    exists v, load_cookies (before_semi l) = Value v /\
      body_dark (dark_mode_loaded (mk_store v []) button) = body_dark p' /\
      toggle_value p' = option_map (fun _ => if body_dark p' then "Undark Mode"%string
                                             else "Dark Mode"%string) (toggle_value p).
Proof.
  destruct (toggle_dark_mode_step env p) as (_ & _ & _ & Hb & l & Hl & v & Hv & Ht).
  exists l. split; [exact Hl|]. exists v. split; [exact Hv|]. split; [|exact Hb].
  unfold dark_mode_loaded. cbn [vault]. rewrite Ht.
  destruct (body_dark (fst (toggle_dark_mode env p))); reflexivity.
Qed.

(** Sidebar *)

Lemma fold_chips (L : list string) (ps : list (string * jsval)) :
  fold_left (fun s id => set_show id s) L (JObj ps) =
    JObj (fold_left (fun ps id => assign_primitive id (JStr "show") ps) L ps).
Proof. revert ps. induction L as [|i L IH]; intros ps; [reflexivity|]. cbn [fold_left set_show]. apply IH. Qed.

Lemma fold_assign_out (d : string) (L : list string) (ps : list (string * jsval)) :
  ~ In d L ->
  prop_get d (fold_left (fun ps id => assign_primitive id (JStr "show") ps) L ps) = prop_get d ps.
Proof.
  revert ps. induction L as [|i L IH]; intros ps H; [reflexivity|]. cbn [fold_left].
  rewrite IH by (intros Hi; apply H; right; exact Hi).
  apply prop_get_assign_other. intros ->. apply H. left. reflexivity.
Qed.

Lemma assign_show_keep (id d : string) (ps : list (string * jsval)) :
  prop_get d ps = Some (JStr "show") ->
  prop_get d (assign_primitive id (JStr "show") ps) = Some (JStr "show").
Proof.
  intros H. destruct (string_dec d id) as [->|Hd].
  - unfold assign_primitive. rewrite H. apply prop_get_set_same.
  - rewrite prop_get_assign_other by exact Hd. exact H.
Qed.

Lemma fold_assign_keep (d : string) (L : list string) (ps : list (string * jsval)) :
  prop_get d ps = Some (JStr "show") ->
  prop_get d (fold_left (fun ps id => assign_primitive id (JStr "show") ps) L ps) = Some (JStr "show").
Proof.
  revert ps. induction L as [|i L IH]; intros ps H; [exact H|]. cbn [fold_left].
  apply IH, assign_show_keep, H.
Qed.

Lemma fold_assign_in (d : string) (L : list string) (ps : list (string * jsval)) :
  In d L -> d <> "__proto__"%string ->
  prop_get d (fold_left (fun ps id => assign_primitive id (JStr "show") ps) L ps) = Some (JStr "show").
Proof.
  revert ps. induction L as [|i L IH]; intros ps H Hd; [contradiction|]. cbn [fold_left].
  destruct H as [->|H]; [|apply IH; assumption].
  apply fold_assign_keep. rewrite assign_primitive_plain by exact Hd. apply prop_get_set_same.
Qed.

Lemma forallb_prop_set {A : Type} (P : string * A -> bool) (k : string) (v : A) (ps : list (string * A)) :
  forallb P ps = true -> P (k, v) = true -> forallb P (prop_set k v ps) = true.
Proof.
  intros H Hk. induction ps as [|[k' v'] ps IH]; cbn [prop_set forallb] in *; [rewrite Hk; reflexivity|].
  apply andb_prop in H as [H1 H2]. destruct (String.eqb k k'); cbn [forallb].
  - rewrite Hk, H2. reflexivity.
  - rewrite H1, IH by exact H2. reflexivity.
Qed.

Lemma keys_distinct_prop_set {A : Type} (k : string) (v : A) (ps : list (string * A)) :
  keys_distinct ps = true -> keys_distinct (prop_set k v ps) = true.
Proof.
  induction ps as [|[k' v'] ps IH]; intros H; [reflexivity|]. cbn [prop_set keys_distinct] in *.
  destruct (String.eqb k k') eqn:E.
  - apply String.eqb_eq in E. subst k'. exact H.
  - cbn [keys_distinct]. rewrite prop_get_set_other.
    + destruct (prop_get k' ps); [discriminate H|]. apply IH, H.
    + intros ->. rewrite String.eqb_refl in E. discriminate.
Qed.

Lemma json_ok_prop_set (ps : list (string * jsval)) (k : string) (v : jsval) :
  json_ok (JObj ps) = true -> plain_text k = true -> scalar_ok v = true ->
  json_ok (JObj (prop_set k v ps)) = true.
Proof.
  cbn [json_ok]. intros H Hk Hv. apply andb_prop in H as [H1 H2].
  rewrite forallb_prop_set, keys_distinct_prop_set by (cbn [fst snd]; try rewrite Hk, Hv; auto).
  reflexivity.
Qed.

Lemma json_ok_assign (ps : list (string * jsval)) (k : string) (v : jsval) :
  json_ok (JObj ps) = true -> plain_text k = true -> scalar_ok v = true ->
  json_ok (JObj (assign_primitive k v ps)) = true.
Proof.
  intros H Hk Hv. unfold assign_primitive.
  destruct (prop_get k ps); [apply json_ok_prop_set; assumption|].
  destruct (String.eqb k "__proto__"); [exact H|apply json_ok_prop_set; assumption].
Qed.

Lemma json_ok_fold_show (L : list string) (ps : list (string * jsval)) :
  json_ok (JObj ps) = true -> forallb plain_text L = true ->
  json_ok (JObj (fold_left (fun ps id => assign_primitive id (JStr "show") ps) L ps)) = true.
Proof.
  revert ps. induction L as [|i L IH]; intros ps H HL; [exact H|].
  cbn [forallb fold_left] in *. apply andb_prop in HL as [H1 H2].
  apply IH; [apply json_ok_assign; auto|exact H2].
Qed.

(** A [nav] cookie holding one object: the pair written and read back. *)
Lemma nav_line_round_trip (env : cookie_env) (o : list (string * jsval)) (st : store) :
  json_ok (JObj o) = true ->
  exists l, written (fst (persistent_cookie env "nav" (JObj o) None st)) = l :: written st /\
    load_cookies (before_semi l) = Value [("nav"%string, JObj o)].
Proof.
  intros Ho. destruct (cookie_pair_round_trip "nav" (JObj o) eq_refl Ho) as (p & Hp & Hs & Hl).
  rewrite (persistent_cookie_none env "nav" (JObj o) st p ltac:(discriminate) Hp).
  eexists. split; [reflexivity|].
  rewrite before_semi_join by exact Hs. unfold load_cookies. rewrite split_semi_single by exact Hs.
  cbn [load_segments]. rewrite Hl. cbn [obind]. rewrite js_assign_plain by discriminate. reflexivity.
Qed.

Lemma visible_in_init (st : store) (defaults : list (string * jsval)) (page_lists ids : list string)
    (d : string) :
  In d ids ->
  visible_in d (init_sidebar_nav st defaults page_lists ids) =
    always_open d || shows (js_get d (fold_left (fun s id => set_show id s) page_lists
                       (match prop_get "nav" (vault st) with
                        | Some v => if truthy v then v else JObj defaults
                        | None => JObj defaults end))).
Proof.
  intros H. unfold visible_in, init_sidebar_nav. cbn [sections].
  rewrite (prop_get_map_in (fun id => always_open id || shows (js_get id _)) d ids H). reflexivity.
Qed.

(** X14: without a [nav] cookie, a section open by [default_nav] closes on the
    next page load once another section was clicked, because only the
    clicked section is stored. *)
Theorem sidebar_defaults_forgotten (env : cookie_env) (st : store) (page_lists ids : list string)
    (t d : string) :
  truthy_opt (prop_get "nav" (vault st)) = false ->
  shows (prop_get d default_nav) = true -> always_open d = false ->
  d <> t -> ~ In d page_lists -> In d ids -> plain_text t = true ->
  let p := init_sidebar_nav st default_nav page_lists ids in
  let p' := fst (toggle_section env t p) in
  visible_in d p = true /\
  exists l, written (nav_store p') = l :: written st /\
    exists v, load_cookies (before_semi l) = Value v /\
      visible_in d (init_sidebar_nav (mk_store v []) default_nav page_lists ids) = false.
Proof.
  intros Hnav Hd Ha Hdt Hpl Hids Ht. cbv zeta. split.
  - rewrite visible_in_init by exact Hids.
    assert (E : match prop_get "nav" (vault st) with
                | Some v => if truthy v then v else JObj default_nav
                | None => JObj default_nav end = JObj default_nav).
    { destruct (prop_get "nav" (vault st)); [cbn [truthy_opt] in Hnav; rewrite Hnav|]; reflexivity. }
    rewrite E, fold_chips, Ha. cbn [orb js_get]. rewrite fold_assign_out by exact Hpl. exact Hd.
  - assert (Hst : nav_store (init_sidebar_nav st default_nav page_lists ids) = st).
    { unfold init_sidebar_nav. cbn [nav_store]. rewrite Hnav. reflexivity. }
    unfold toggle_section. cbn [fst nav_store]. rewrite Hst.
    set (hs := if visible_in t _ then "hide"%string else "show"%string).
    assert (Hc : set_cookie_chip env "nav" t (JStr hs) None st =
                 persistent_cookie env "nav" (JObj (assign_primitive t (JStr hs) [])) None st).
    { unfold set_cookie_chip, js_read. destruct (prop_get "nav" (vault st)) as [v|];
        [cbn [truthy_opt] in Hnav; rewrite Hnav|]; reflexivity. }
    rewrite Hc.
    destruct (nav_line_round_trip env (assign_primitive t (JStr hs) []) st) as (l & Hl & Hv).
    { apply json_ok_assign; [reflexivity|exact Ht|]. subst hs. destruct (visible_in t _); reflexivity. }
    exists l. split; [exact Hl|]. eexists. split; [exact Hv|].
    rewrite visible_in_init by exact Hids. cbn [vault prop_get]. rewrite String.eqb_refl. cbn [truthy].
    rewrite fold_chips, Ha. cbn [orb js_get]. rewrite fold_assign_out by exact Hpl.
    rewrite prop_get_assign_other by exact Hdt. reflexivity.
Qed.

(** X15: with a [nav] cookie, the section of the current page is written into
    the vault's object; the next click on another section stores it, and
    it shows on the next page load, whatever page that is. *)
Theorem sidebar_current_section_saved (env : cookie_env) (st : store)
    (ps defaults : list (string * jsval)) (page_lists later_lists ids : list string) (t f : string) :
  prop_get "nav" (vault st) = Some (JObj ps) -> json_ok (JObj ps) = true ->
  forallb plain_text page_lists = true -> plain_text t = true ->
  In f page_lists -> f <> t -> f <> "__proto__"%string -> In f ids ->
  let p' := fst (toggle_section env t (init_sidebar_nav st defaults page_lists ids)) in
  exists l, written (nav_store p') = l :: written st /\
    exists v, load_cookies (before_semi l) = Value v /\
      visible_in f (init_sidebar_nav (mk_store v []) defaults later_lists ids) = true.
Proof.
  intros Hnav Hok Hpl Ht Hf Hft Hfp Hids. cbv zeta.
  set (qs := fold_left (fun ps id => assign_primitive id (JStr "show") ps) page_lists ps).
  assert (Hst : nav_store (init_sidebar_nav st defaults page_lists ids) =
                mk_store (prop_set "nav" (JObj qs) (vault st)) (written st)).
  { unfold init_sidebar_nav. cbn [nav_store]. rewrite Hnav. cbn [truthy_opt truthy].
    rewrite fold_chips. reflexivity. }
  unfold toggle_section. cbn [fst nav_store]. rewrite Hst.
  set (hs := if visible_in t _ then "hide"%string else "show"%string).
  assert (Hc : set_cookie_chip env "nav" t (JStr hs) None
                 (mk_store (prop_set "nav" (JObj qs) (vault st)) (written st)) =
               persistent_cookie env "nav" (JObj (assign_primitive t (JStr hs) qs)) None
                 (mk_store (prop_set "nav" (JObj qs) (vault st)) (written st))).
  { unfold set_cookie_chip. cbn [vault].
    rewrite (js_read_get "nav" _ (JObj qs) (prop_get_set_same _ _ _)). reflexivity. }
  rewrite Hc.
  destruct (nav_line_round_trip env (assign_primitive t (JStr hs) qs)
              (mk_store (prop_set "nav" (JObj qs) (vault st)) (written st))) as (l & Hl & Hv).
  { apply json_ok_assign; [apply json_ok_fold_show; assumption|exact Ht|].
    subst hs. destruct (visible_in t _); reflexivity. }
  exists l. split; [exact Hl|]. eexists. split; [exact Hv|].
  rewrite visible_in_init by exact Hids. cbn [vault prop_get]. rewrite String.eqb_refl. cbn [truthy].
  rewrite fold_chips. cbn [js_get].
  assert (Hq : prop_get f (assign_primitive t (JStr hs) qs) = Some (JStr "show")).
  { rewrite prop_get_assign_other by exact Hft. subst qs. apply fold_assign_in; assumption. }
  rewrite (fold_assign_keep f later_lists _ Hq). change (shows (Some (JStr "show"))) with true.
  apply orb_true_r.
Qed.

(** Search order *)


Lemma compare_neg_le (x y : match_rec) :
  (compare_matches x y <? 0)%Z = true -> (score y <= score x)%Q.
Proof.
  unfold compare_matches, Q_gt, Q_lt. intros H.
  destruct (Qcompare (score x) (score y)) eqn:E.
  - apply Qeq_alt in E. rewrite E. apply Qle_refl.
  - discriminate H.
  - apply Qgt_alt in E. apply Qlt_le_weak, E.
Qed.

Lemma compare_nonneg_le (x y : match_rec) :
  (compare_matches x y <? 0)%Z = false -> (score x <= score y)%Q.
Proof.
  unfold compare_matches, Q_gt. intros H.
  destruct (Qcompare (score x) (score y)) eqn:E; [| |discriminate H].
  - apply Qeq_alt in E. rewrite E. apply Qle_refl.
  - apply Qlt_alt in E. apply Qlt_le_weak, E.
Qed.

Lemma insert_match_sorted (x : match_rec) (l : list match_rec) :
  Sorted score_desc l -> Sorted score_desc (insert_match x l).
Proof.
  induction l as [|y l IH]; intros H; cbn [insert_match].
  - repeat constructor.
  - destruct (compare_matches x y <? 0)%Z eqn:E.
    + constructor; [exact H|]. constructor. apply compare_neg_le, E.
    + apply Sorted_inv in H as [H1 H2]. constructor; [apply IH, H1|].
      destruct l as [|z l']; cbn [insert_match].
      * constructor. apply compare_nonneg_le, E.
      * destruct (compare_matches x z <? 0)%Z; constructor.
        -- apply compare_nonneg_le, E.
        -- inversion H2. assumption.
Qed.

Lemma sort_matches_sorted (l : list match_rec) : Sorted score_desc (sort_matches l).
Proof.
  unfold sort_matches. assert (G : forall acc, Sorted score_desc acc ->
    Sorted score_desc (fold_left (fun acc x => insert_match x acc) l acc)).
  { induction l as [|x l IH]; intros acc H; [exact H|]. apply IH, insert_match_sorted, H. }
  apply G. constructor.
Qed.

Lemma firstn_sorted (n : nat) (l : list match_rec) :
  Sorted score_desc l -> Sorted score_desc (firstn n l).
Proof.
  revert n. induction l as [|y l IH]; intros n H; [destruct n; constructor|].
  destruct n as [|n]; [constructor|]. cbn [firstn]. apply Sorted_inv in H as [H1 H2].
  constructor; [apply IH, H1|]. destruct l as [|z l'], n as [|n]; cbn [firstn]; try constructor.
  inversion H2. assumption.
Qed.

(** X16: the ranked list of a search never increases in score. *)
Theorem search_list_sorted (site_index : option index) (query : string) (l : list match_rec) :
  search_list site_index query = Ok l -> Sorted score_desc l.
Proof.
  unfold search_list. destruct (compile query) as [p|]; [|discriminate].
  destruct site_index as [keys|]; [|discriminate].
  destruct (0 <? length (collect p query keys))%nat eqn:E0.
  - destruct (10 <? length (sort_matches (collect p query keys)))%nat; intros H; injection H as <-.
    + exact (firstn_sorted 10 _ (sort_matches_sorted _)).
    + apply sort_matches_sorted.
  - intros H. injection H as <-. destruct (collect p query keys); [constructor|discriminate E0].
Qed.

Local Close Scope N_scope.

(** * Witnesses of the extra properties *)

Lemma load_cookies_written_witness :
  exists pairs,
    map (fun kv => cookie_pair (fst kv) (snd kv))
      [("lang"%string, JStr "en"); ("nav"%string, JObj [("s1"%string, JStr "hide")])] = map Value pairs /\
    load_cookies (join semi_sep pairs) =
      Value (fold_left (fun v kv => prop_set (fst kv) (snd kv) v)
               [("lang"%string, JStr "en"); ("nav"%string, JObj [("s1"%string, JStr "hide")])] []).
Proof. apply load_cookies_written; [discriminate|reflexivity]. Defined.

Lemma load_json_tagged_string_witness :
  json_tag (list_ascii_of_string "json:7") = Some (list_ascii_of_string "7") /\
  exists p, cookie_pair "note" (JStr "json:7") = Value p /\
    load_cookies p = obind (json_parse (list_ascii_of_string "7")) (fun x => Value [("note"%string, x)]).
Proof.
  split; [reflexivity|]. apply load_json_tagged_string; reflexivity.
Defined.

Lemma load_segment_without_value_witness :
  load_cookies [] =
    Value (if String.eqb (string_of_list_ascii []) "__proto__" then []
           else [(string_of_list_ascii [], JStr "undefined")]).
Proof. apply load_segment_without_value; reflexivity. Defined.

Lemma set_cookie_without_opts_witness :
  js_assign "k" (JStr "v") [] = Value (prop_set "k" (JStr "v") []) /\
  cookie_pair "k" (JStr "v") = Value (list_ascii_of_string "k=v") /\
  set_cookie (mk_cookie_env (fun _ => []) 0 0) "k" (JStr "v") None (mk_store [] []) =
    (mk_store (prop_set "k" (JStr "v") []) [], Raise (JsError TypeError)).
Proof.
  split; [reflexivity|]. split; [reflexivity|].
  apply (set_cookie_without_opts _ _ _ (mk_store [] []) (prop_set "k" (JStr "v") [])
           (list_ascii_of_string "k=v")); reflexivity.
Defined.

Lemma set_cookie_always_secure_witness :
  let r := set_cookie (mk_cookie_env (fun _ => []) 0 0) "k" (JStr "v")
             (Some [("secure"%string, OBool false)]) (mk_store [] []) in
  r = (fst r, Value tt) /\
  (js_assign "k" (JStr "v") (vault (mk_store [] [])) = Value (vault (fst r)) /\
   exists pre, written (fst r) = (pre ++ semi_sep ++ list_ascii_of_string "secure") :: []).
Proof.
  cbv zeta. split; [reflexivity|].
  apply (set_cookie_always_secure (mk_cookie_env (fun _ => []) 0 0) "k" (JStr "v") (Some [("secure"%string, OBool false)]) (mk_store [] [])).
  reflexivity.
Defined.

Lemma set_cookie_default_opts_witness :
  truthy_optval (prop_get "expires" [("path"%string, OStr ""); ("secure"%string, OBool false)]) = false /\
  set_cookie (mk_cookie_env (fun _ => []) 0 0) "k" (JStr "v")
    (Some [("path"%string, OStr ""); ("secure"%string, OBool false)]) (mk_store [] []) =
    (mk_store (prop_set "k" (JStr "v") [])
       ((list_ascii_of_string "k=v" ++ list_ascii_of_string "; domain=.bin.sh; path=/; secure") :: []),
     Value tt).
Proof.
  split; [reflexivity|]. apply set_cookie_default_opts; reflexivity.
Defined.

Lemma set_cookie_bad_expires_witness :
  set_cookie (mk_cookie_env (fun _ => []) 0 0) "k" (JStr "v")
    (Some [("expires"%string, OStr "tomorrow")]) (mk_store [] []) =
    (mk_store (prop_set "k" (JStr "v") []) [], Raise (JsError TypeError)).
Proof.
  apply (set_cookie_bad_expires _ _ _ _ (mk_store [] []) (prop_set "k" (JStr "v") []) "tomorrow"
           (list_ascii_of_string "k=v"));
    try reflexivity; discriminate.
Defined.

Lemma persistent_cookie_line_witness :
  let r := persistent_cookie (mk_cookie_env (fun _ => list_ascii_of_string "DATE") 0 0) "k" (JNum 1)
             None (mk_store [] []) in
  r = (fst r, Value tt) /\
  (js_assign "k" (JNum 1) (vault (mk_store [] [])) = Value (vault (fst r)) /\
   exists p rest, cookie_pair "k" (JNum 1) = Value p /\
     written (fst r) = (p ++ semi_sep ++ list_ascii_of_string "expires=" ++
                        list_ascii_of_string "DATE" ++ rest) :: []).
Proof.
  cbv zeta. split; [reflexivity|].
  apply (persistent_cookie_line (mk_cookie_env (fun _ => list_ascii_of_string "DATE") 0 0) _ _ None
           (mk_store [] [])).
  reflexivity.
Defined.

Lemma set_cookie_chip_object_witness :
  exists e, prop_get "nav" (vault (fst (set_cookie_chip (mk_cookie_env (fun _ => []) 0 0) "nav" "s2"
              (JStr "show") None (mk_store [("nav"%string, JObj [("s1"%string, JStr "hide")])] [])))) = Some e /\
    forall c', js_get c' e =
      if String.eqb c' "s2" then Some (JStr "show")
      else match js_read "nav" [("nav"%string, JObj [("s1"%string, JStr "hide")])] with
           | Own v => js_get c' v | _ => None end.
Proof.
  apply (set_cookie_chip_object _ _ _ _ _ (mk_store [("nav"%string, JObj [("s1"%string, JStr "hide")])] []));
    [discriminate|].
  right. eexists. split; [reflexivity|right; eexists; reflexivity].
Defined.

Lemma set_cookie_chip_primitive_witness :
  prop_get "nav" (vault (fst (set_cookie_chip (mk_cookie_env (fun _ => []) 0 0) "nav" "s2"
     (JStr "show") None (mk_store [("nav"%string, JStr "x")] [])))) = Some (JStr "x").
Proof.
  apply (set_cookie_chip_primitive _ _ _ _ _ (mk_store [("nav"%string, JStr "x")] []) (JStr "x"));
    [reflexivity|reflexivity|intros ps; discriminate].
Defined.

Lemma sidebar_defaults_forgotten_witness :
  let p := init_sidebar_nav (mk_store [] []) default_nav []
             ["0db377921f4ce762c62526131097968f"%string; "a1"%string] in
  let p' := fst (toggle_section (mk_cookie_env (fun _ => []) 0 0) "a1" p) in
  visible_in "0db377921f4ce762c62526131097968f" p = true /\
  exists l, written (nav_store p') = l :: [] /\
    exists v, load_cookies (before_semi l) = Value v /\
      visible_in "0db377921f4ce762c62526131097968f"
        (init_sidebar_nav (mk_store v []) default_nav []
           ["0db377921f4ce762c62526131097968f"%string; "a1"%string]) = false.
Proof.
  apply (sidebar_defaults_forgotten _ (mk_store [] [])); try reflexivity.
  - discriminate.
  - intros [].
  - left. reflexivity.
Defined.

Lemma sidebar_current_section_saved_witness :
  let p' := fst (toggle_section (mk_cookie_env (fun _ => []) 0 0) "t1"
              (init_sidebar_nav (mk_store [("nav"%string, JObj [("f1"%string, JStr "hide")])] [])
                 default_nav ["f1"%string] ["f1"%string; "t1"%string])) in
  exists l, written (nav_store p') = l :: [] /\
    exists v, load_cookies (before_semi l) = Value v /\
      visible_in "f1" (init_sidebar_nav (mk_store v []) default_nav ["t1"%string]
                         ["f1"%string; "t1"%string]) = true.
Proof.
  apply (sidebar_current_section_saved _ (mk_store [("nav"%string, JObj [("f1"%string, JStr "hide")])] [])
           [("f1"%string, JStr "hide")] default_nav ["f1"%string] ["t1"%string]); try reflexivity.
  - left. reflexivity.
  - discriminate.
  - discriminate.
  - left. reflexivity.
Defined.

Lemma search_list_sorted_witness :
  search_list (Some monsters) "Go" = Ok ranked_go /\ Sorted score_desc ranked_go.
Proof.
  assert (H : search_list (Some monsters) "Go" = Ok ranked_go) by (vm_compute; reflexivity).
  split; [exact H|]. apply (search_list_sorted (Some monsters) "Go"). exact H.
Defined.
